(** * AlphaFold3 embedders and losses: a shallow embedding

    The development follows the two source files

    - [src/models/embedders.py]: [InputFeatureEmbedder], [InputEmbedder],
      [dgram_from_positions], [TemplateEmbedder];
    - [src/utils/loss.py]: [smooth_lddt_loss], [mean_squared_error],
      [mse_loss], [distogram_loss], [AlphaFold3Loss].

    Three number domains are used, each where the code's behaviour is
    decided by it:

    - exact rationals [Q] for the template features and the distogram
      (comparisons against bin edges, products of 0/1 masks), the values a
      floating-point dtype computes being rationals too ([TensorDtype]);
    - IEEE-754 values ([spec_float], any precision) where the code is about
      [NaN] and [Inf]: the loss aggregator and the template average;
    - real numbers [R] for the losses that need [sqrt], [exp] and [ln];
      a division whose denominator is zero has no value ([None]).

    Tensors are index functions with their sizes kept alongside; the channel
    axis of the embedders, which the code builds with [torch.cat], is a list.
    Leading batch axes on which the code is pointwise are fixed to one
    element in the embedders and kept explicit in the losses. *)

From Stdlib Require Import List ZArith QArith Qabs Bool Lia Psatz String Sorted.
From Stdlib Require Import Reals.
From Stdlib Require Import Floats.SpecFloat.
Import ListNotations.

(* ================================================================== *)
(** * Part I. The model *)
(* ================================================================== *)

(** ** [src/models/embedders.py] *)

Module Embedders.
Local Open Scope Q_scope.

(** *** Tensor primitives *)

Definition Vec3 : Type := (Q * Q * Q)%type.

(** [bool_tensor.type(dtype)] *)
Definition b2q (b : bool) : Q := if b then 1 else 0.

(** [a > b] and [a < b] on tensor entries *)
Definition Qgtb (a b : Q) : bool := negb (Qle_bool a b).
Definition Qltb (a b : Q) : bool := negb (Qle_bool b a).

(** [x ** 2] *)
Definition sq (x : Q) : Q := x * x.

(** [torch.sum((p - q) ** 2, dim=-1)] on one pair of positions *)
Definition sqdist (p q : Vec3) : Q :=
  let '(px, py, pz) := p in
  let '(qx, qy, qz) := q in
  sq (px - qx) + sq (py - qy) + sq (pz - qz).

(** [torch.linspace(start, end, steps)]: [steps] evenly spaced values,
    the first [start] and the last [end]. *)
Definition linspace (start stop : Q) (steps : nat) : list Q :=
  match steps with
  | O => []
  | 1%nat => [start]
  | _ =>
      let step := (stop - start) / inject_Z (Z.of_nat (steps - 1)) in
      map (fun i => start + inject_Z (Z.of_nat i) * step) (seq 0 steps)
  end.

(** [F.one_hot(c, num_classes)] on one entry; the call raises when an entry
    is negative or not below [num_classes] ([one_hot_ok]). *)
Definition one_hot (num_classes : nat) (c : Z) : list Q :=
  map (fun k => b2q (Z.of_nat k =? c)%Z) (seq 0 num_classes).

Definition one_hot_ok (num_classes : nat) (c : Z) : bool :=
  ((0 <=? c) && (c <? Z.of_nat num_classes))%Z.

(** [torch.isclose(input, other)] with its default tolerances:
    [|input - other| <= atol + rtol * |other|]. *)
Definition rtol : Q := 1 # 100000.
Definition atol : Q := 1 # 100000000.

Definition isclose (input other : Q) : bool :=
  Qle_bool (Qabs (input - other)) (atol + rtol * Qabs other).

(** Elementwise sum of two channel vectors. *)
Fixpoint vadd (a b : list Q) : list Q :=
  match a, b with
  | x :: a', y :: b' => (x + y) :: vadd a' b'
  | _, _ => []
  end.

(** Tensor times a per-cell scalar (broadcast over the channel axis). *)
Definition vscale (a : list Q) (s : Q) : list Q := map (fun x => x * s) a.

(** *** [dgram_from_positions] *)

Definition default_min_bin : Q := 13 # 4.      (* 3.25 *)
Definition default_max_bin : Q := 203 # 4.     (* 50.75 *)
Definition default_no_bins : nat := 39.
Definition default_inf : Q := 100000000.       (* 1e8 *)

(** [lower = torch.linspace(min_bin, max_bin, no_bins) ** 2] *)
Definition dgram_lower (min_bin max_bin : Q) (no_bins : nat) : list Q :=
  map sq (linspace min_bin max_bin no_bins).

(** [upper = torch.cat([lower[1:], lower.new_tensor([inf])], dim=-1)] *)
Definition dgram_upper (min_bin max_bin : Q) (no_bins : nat) (inf : Q) : list Q :=
  tl (dgram_lower min_bin max_bin no_bins) ++ [inf].

(** [((dgram > lower) * (dgram < upper)).type(dgram.dtype)] for one squared
    distance: one channel per bin. *)
Definition dgram_channels (min_bin max_bin : Q) (no_bins : nat) (inf : Q)
    (d2 : Q) : list Q :=
  map (fun lu => b2q (Qgtb d2 (fst lu) && Qltb d2 (snd lu)))
      (combine (dgram_lower min_bin max_bin no_bins)
               (dgram_upper min_bin max_bin no_bins inf)).

(** [pos] is [[N_token, 3]]; the result is [[N_token, N_token, no_bins]]. *)
Definition dgram_from_positions (pos : nat -> Vec3)
    (min_bin max_bin : Q) (no_bins : nat) (inf : Q) : nat -> nat -> list Q :=
  fun i j => dgram_channels min_bin max_bin no_bins inf (sqdist (pos i) (pos j)).

(** *** [dgram_from_positions] in the tensor dtype

    The code computes [dgram] (l.247-249) and [lower] (l.250) in floating
    point, float32 by default: the subtractions, the squares, the sum and
    [torch.linspace] each round their result. A [TensorDtype] gives the two
    tensors as the dtype computes them, with finite entries, each the rational
    number the dtype holds. In [exact_dtype] nothing is rounded; for the
    default bins float32 computes the same boundaries, [(3.25 + 1.25 k) ** 2]
    being exact in it. *)
Class TensorDtype : Type := {
  (* [torch.sum((p - q) ** 2, dim=-1)] on one pair of positions *)
  sum_sq_diff : Vec3 -> Vec3 -> Q;
  (* [torch.linspace(min_bin, max_bin, no_bins) ** 2] *)
  linspace_sq : Q -> Q -> nat -> list Q
}.

Definition exact_dtype : TensorDtype :=
  {| sum_sq_diff := sqdist; linspace_sq := dgram_lower |}.

Definition dgram_from_positions_in (D : TensorDtype) (pos : nat -> Vec3)
    (min_bin max_bin : Q) (no_bins : nat) (inf : Q) : nat -> nat -> list Q :=
  fun i j =>
  let dgram := sum_sq_diff (pos i) (pos j) in
  let lower := linspace_sq min_bin max_bin no_bins in
  let upper := tl lower ++ [inf] in
  map (fun lu => b2q (Qgtb dgram (fst lu) && Qltb dgram (snd lu)))
      (combine lower upper).

(** *** [TemplateEmbedder]: the template pair features *)

Record TemplateFeatures : Type := {
  n_templ : nat;
  n_token : nat;
  template_aatype : nat -> nat -> Z;            (* [N_templ, N_token] *)
  template_pseudo_beta : nat -> nat -> Vec3;    (* [N_templ, N_token, 3] *)
  template_pseudo_beta_mask : nat -> nat -> Q;  (* [N_templ, N_token] *)
  asym_id : nat -> Q                            (* [N_token] *)
}.

(** [template_distogram = dgram_from_positions(features["template_pseudo_beta"])] *)
Definition template_distogram (F : TemplateFeatures) (t i j : nat) : list Q :=
  dgram_from_positions (template_pseudo_beta F t)
    default_min_bin default_max_bin default_no_bins default_inf i j.

(** [template_restype = F.one_hot(features["template_aatype"], num_classes=22)] *)
Definition template_restype (F : TemplateFeatures) (t i : nat) : list Q :=
  one_hot 22 (template_aatype F t i).

Definition template_aatype_ok (F : TemplateFeatures) : bool :=
  forallb (fun t =>
    forallb (fun i => one_hot_ok 22 (template_aatype F t i)) (seq 0 (n_token F)))
    (seq 0 (n_templ F)).

(** [b_pseudo_beta_mask[..., None] * b_pseudo_beta_mask[..., None, :]] *)
Definition b_pseudo_beta_mask (F : TemplateFeatures) (t i j : nat) : Q :=
  template_pseudo_beta_mask F t i * template_pseudo_beta_mask F t j.

(** [asym_id_i = asym_id[..., None, :]] varies along the last token axis,
    [asym_id_j = asym_id[..., None]] along the first one. *)
Definition same_asym_id (F : TemplateFeatures) (i j : nat) : Q :=
  b2q (isclose (asym_id F j) (asym_id F i)).

(** The concatenated feature of template [t] at the pair [(i, j)], as built
    by [forward] up to "Mask the invalid features". *)
Definition template_feat (F : TemplateFeatures) (t i j : nat) : list Q :=
  let feat := template_distogram F t i j ++ [b_pseudo_beta_mask F t i j] in
  let feat := vscale feat (same_asym_id F i j) in
  let temp_restype_i := template_restype F t i in
  let temp_restype_j := template_restype F t j in
  let feat := feat ++ temp_restype_i ++ temp_restype_j in
  vscale feat (b_pseudo_beta_mask F t i j).

(** *** [TemplateEmbedder.forward]

    The activations are IEEE-754 values of any format [(prec, emax)]: the
    average over the templates is a floating-point division by the template
    count. The template features are exact 0/1 products and stay in [Q];
    the learned layers and the pair stack are fields of the module. *)

Module TemplateEmbedder.
Section Forward.
Variables prec emax : Z.

Definition Act : Type := list spec_float.
Definition PairAct : Type := nat -> nat -> Act.

(** The float [0.] and the conversion of a Python [int] to the tensor's dtype. *)
Definition fzero : spec_float := S754_zero false.
Definition of_nat (n : nat) : spec_float :=
  binary_normalize prec emax (Z.of_nat n) 0 false.

Fixpoint act_add (a b : Act) : Act :=
  match a, b with
  | x :: a', y :: b' => SFadd prec emax x y :: act_add a' b'
  | _, _ => []
  end.

(** [torch.div(u, s)] with a scalar [s] *)
Definition act_div (a : Act) (s : spec_float) : Act :=
  map (fun x => SFdiv prec emax x s) a.

(** [nn.ReLU]: [max(x, 0)], a NaN stays a NaN. *)
Definition relu (x : spec_float) : spec_float :=
  if SFltb x fzero then fzero else x.

(** [torch.zeros_like] *)
Definition zeros_like (a : PairAct) : PairAct :=
  fun i j => map (fun _ => fzero) (a i j).

(** Modelled from the spec: [add(m1, m2, inplace)] of
    [src/utils/tensor_utils.py] (not among the sources) is the sum [m1 + m2],
    here of two tensors of one shape; [inplace] only allows the sum to reuse a
    buffer (section 4.2). *)
Definition add (m1 m2 : PairAct) (inplace : bool) : PairAct :=
  fun i j => act_add (m1 i j) (m2 i j).

(** The module's state: layers acting on the channel axis are functions on
    one channel vector, the pair stack acts on the whole pair tensor. *)
Record t : Type := {
  proj_pair : Act -> Act;            (* Sequential(LayerNorm, LinearNoBias) *)
  linear_templ_feat : list Q -> Act; (* LinearNoBias(84, c_template) *)
  pair_stack : PairAct -> (nat -> nat -> Q) -> PairAct;
  v_to_u_ln : Act -> Act;            (* LayerNorm(c_template) *)
  output_proj_linear : Act -> Act    (* the LinearNoBias of output_proj *)
}.

(** One turn of [for t in range(len(single_templates))]. *)
Definition template_step (self : t) (F : TemplateFeatures) (z_proj : PairAct)
    (pair_mask : nat -> nat -> Q) (inplace_safe : bool)
    (u : PairAct) (tt : nat) : PairAct :=
  let v : PairAct :=
    fun i j => act_add (z_proj i j) (linear_templ_feat self (template_feat F tt i j)) in
  let v := add v (pair_stack self v pair_mask) inplace_safe in
  add u (fun i j => v_to_u_ln self (v i j)) inplace_safe.

(** The tensor handed to [output_proj]: the accumulator after
    [u = torch.div(u, n_templ)]. *)
Definition template_average (self : t) (F : TemplateFeatures) (z_trunk : PairAct)
    (pair_mask : nat -> nat -> Q) (inplace_safe : bool) : PairAct :=
  let z_proj : PairAct := fun i j => proj_pair self (z_trunk i j) in
  let u := zeros_like z_proj in
  let u := fold_left (template_step self F z_proj pair_mask inplace_safe)
                     (seq 0 (n_templ F)) u in
  fun i j => act_div (u i j) (of_nat (n_templ F)).

(** [None] is the error raised by [F.one_hot] on a residue type outside
    [0..21]. *)
Definition forward (self : t) (F : TemplateFeatures) (z_trunk : PairAct)
    (pair_mask : nat -> nat -> Q) (inplace_safe : bool) : option PairAct :=
  if template_aatype_ok F then
    let u := template_average self F z_trunk pair_mask inplace_safe in
    Some (fun i j => output_proj_linear self (map relu (u i j)))
  else None.

End Forward.
End TemplateEmbedder.

(** *** Pair tensors with broadcasting, for [InputEmbedder] *)

(** A tensor [[rows, cols, c]]; an axis of size 1 broadcasts. *)
Record PairTensor : Type := {
  rows : nat;
  cols : nat;
  cell : nat -> nat -> list Q
}.

Definition bcast (d i : nat) : nat := if (d =? 1)%nat then 0%nat else i.

Definition pair_get (T : PairTensor) (i j : nat) : list Q :=
  cell T (bcast (rows T) i) (bcast (cols T) j).

(** The broadcast of two sizes; [None] when they are incompatible. *)
Definition bdim (a b : nat) : option nat :=
  if (a =? b)%nat then Some a
  else if (a =? 1)%nat then Some b
  else if (b =? 1)%nat then Some a
  else None.

(** Modelled from the spec: [add(m1, m2, inplace)] of
    [src/utils/tensor_utils.py] (not among the sources) is the broadcasting sum
    [m1 + m2]; [inplace] only allows the sum to reuse a buffer (section 4.2). *)
Definition add (m1 m2 : PairTensor) (inplace : bool) : option PairTensor :=
  match bdim (rows m1) (rows m2), bdim (cols m1) (cols m2) with
  | Some r, Some c =>
      Some {| rows := r; cols := c;
              cell := fun i j => vadd (pair_get m1 i j) (pair_get m2 i j) |}
  | _, _ => None
  end.

(** [s[..., None, :]] and [s[..., None, :, :]] for [s] of shape [[n, c]]. *)
Definition unsqueeze_m2 (n : nat) (s : nat -> list Q) : PairTensor :=
  {| rows := n; cols := 1; cell := fun i _ => s i |}.

Definition unsqueeze_m3 (n : nat) (s : nat -> list Q) : PairTensor :=
  {| rows := 1; cols := n; cell := fun _ j => s j |}.

(** A layer acting on the channel axis, applied to every cell. *)
Definition on_cells (f : list Q -> list Q) (T : PairTensor) : PairTensor :=
  {| rows := rows T; cols := cols T; cell := fun i j => f (cell T i j) |}.

Definition dot (a b : list Q) : Q :=
  fold_left Qplus (map (fun ab => fst ab * snd ab) (combine a b)) 0.

(** Modelled from the spec: [LinearNoBias] of
    [src/models/components/primitives.py] (not among the sources) is a linear
    projection without bias, [x |-> W x] along the channel axis; the weight
    [W] has one row per output channel. *)
Definition LinearNoBias (W : list (list Q)) (x : list Q) : list Q :=
  map (fun row => dot row x) W.

(** *** [InputFeatureEmbedder] and [InputEmbedder] *)

Section InputEmbedding.

(** The reference-conformer features ([ref_pos], [ref_charge], [ref_mask],
    [ref_element], [ref_atom_name_chars], [ref_space_uid], [atom_to_token]),
    read by the atom attention encoder only. *)
Variable AtomFeatures : Type.

Record InputFeatures : Type := {
  atom_features : AtomFeatures;
  aatype : nat -> Z;          (* [N_token] *)
  atom_mask : nat -> Q;       (* [N_atoms] *)
  n_tokens : nat;             (* the trailing size of token_mask *)
  token_mask : nat -> Q       (* [N_token] *)
}.

(** [InputFeatureEmbedder]: [encoder] returns [token_single] with the
    samples axis already squeezed. *)
Record InputFeatureEmbedder : Type := {
  encoder : InputFeatures -> (nat -> Q) -> nat -> nat -> list Q;
  restype_embedding : list (list Q);   (* LinearNoBias(21, c_token) *)
  output_ln : list Q -> list Q         (* LayerNorm(c_token) *)
}.

Definition aatype_ok (features : InputFeatures) (n : nat) : bool :=
  forallb (fun i => one_hot_ok 21 (aatype features i)) (seq 0 n).

Definition InputFeatureEmbedder_forward (self : InputFeatureEmbedder)
    (features : InputFeatures) (n : nat) (mask : nat -> Q)
    : option (nat -> list Q) :=
  if aatype_ok features n then
    let per_token_features := encoder self features mask n in
    let f_restype := fun i => one_hot 21 (aatype features i) in
    let per_token_features := fun i =>
      vadd (per_token_features i) (LinearNoBias (restype_embedding self) (f_restype i)) in
    Some (fun i => output_ln self (per_token_features i))
  else None.

Record InputEmbedder : Type := {
  input_feature_embedder : InputFeatureEmbedder;
  linear_single : list (list Q);   (* LinearNoBias(c_token, c_token) *)
  linear_proj_i : list (list Q);   (* LinearNoBias(c_token, c_trunk_pair) *)
  linear_proj_j : list (list Q);   (* LinearNoBias(c_token, c_trunk_pair) *)
  relpos : InputFeatures -> (nat -> Q) -> PairTensor
}.

(** Returns [(s_inputs, s_init, z_init)]. *)
Definition InputEmbedder_forward (self : InputEmbedder)
    (features : InputFeatures) (inplace_safe : bool)
    : option ((nat -> list Q) * (nat -> list Q) * PairTensor) :=
  let n := n_tokens features in
  let atom_mask := atom_mask features in
  let token_mask := token_mask features in
  match InputFeatureEmbedder_forward (input_feature_embedder self)
          features n atom_mask with
  | None => None
  | Some s_inputs =>
      let s_init := fun i => LinearNoBias (linear_single self) (s_inputs i) in
      match add (on_cells (LinearNoBias (linear_proj_i self)) (unsqueeze_m2 n s_inputs))
                (on_cells (LinearNoBias (linear_proj_j self)) (unsqueeze_m3 n s_inputs))
                false with
      | None => None
      | Some z_init =>
          match add z_init (relpos self features token_mask) inplace_safe with
          | None => None
          | Some z_init => Some (s_inputs, s_init, z_init)
          end
      end
  end.

End InputEmbedding.

End Embedders.

(** ** [src/utils/loss.py] *)

Module Losses.
Local Open Scope R_scope.

(** *** Tensor primitives over the reals *)

(** One entry of a [Vec3Array]. *)
Record Vec3 : Type := mkVec3 { vx : R; vy : R; vz : R }.

Definition Tensor1 : Type := nat -> R.            (* [bs] *)
Definition Tensor2 : Type := nat -> nat -> R.     (* [bs, n] *)
Definition Vec3Array : Type := nat -> nat -> Vec3. (* [bs, n_atoms] *)

(** A value that may be missing: [None] stands for a result that is not a
    finite number (a division by zero, the mean of an empty tensor) or for an
    exception of a torch call. *)
Definition div (a b : R) : option R :=
  if Req_dec_T b 0 then None else Some (a / b).

(** [torch.sum] along one axis of size [n], and along two. *)
Fixpoint sum_n (n : nat) (f : nat -> R) : R :=
  match n with
  | O => 0
  | S k => sum_n k f + f k
  end.

Definition sum2 (n m : nat) (f : nat -> nat -> R) : R :=
  sum_n n (fun i => sum_n m (f i)).

(** The same sum when entries may be missing. *)
Fixpoint osum_n (n : nat) (f : nat -> option R) : option R :=
  match n with
  | O => Some 0
  | S k =>
      match osum_n k f, f k with
      | Some a, Some b => Some (a + b)
      | _, _ => None
      end
  end.

(** [torch.mean] of a tensor of [n] entries; the mean of an empty tensor is
    NaN. *)
Definition torch_mean (n : nat) (f : nat -> option R) : option R :=
  match n with
  | O => None
  | S _ => option_map (fun s => s / INR n) (osum_n n f)
  end.

(** [(a < b).float()] *)
Definition lt_float (a b : R) : R := if Rlt_dec a b then 1 else 0.

(** [torch.eye(n)] *)
Definition eye (l m : nat) : R := if (l =? m)%nat then 1 else 0.

(** [F.sigmoid] *)
Definition sigmoid (x : R) : R := 1 / (1 + exp (- x)).

Definition ones_like (w : Tensor2) : Tensor2 := fun _ _ => 1.
Definition zeros_like (w : Tensor2) : Tensor2 := fun _ _ => 0.

(** *** The geometry helpers of [src/utils/geometry], not among the sources *)

(** [src/utils/geometry/vector.py]: the two distance helpers. The second one
    takes the numerical-stability argument [epsilon] of the call. *)
Class VectorLib : Type := {
  euclidean_distance : Vec3 -> Vec3 -> R;
  square_euclidean_distance : Vec3 -> Vec3 -> R -> R
}.

(** [src/utils/geometry/alignment.py]:
    [weighted_rigid_align(x, x_gt, weights, mask)] on tensors of shape
    [[bs, n_atoms]]; the two sizes come first. *)
Class AlignmentLib : Type := {
  weighted_rigid_align :
    nat -> nat -> Vec3Array -> Vec3Array -> Tensor2 -> option Tensor2 -> Vec3Array
}.

Definition vsub (p q : Vec3) : Vec3 :=
  mkVec3 (vx p - vx q) (vy p - vy q) (vz p - vz q).

Definition sqnorm (p : Vec3) : R := vx p * vx p + vy p * vy p + vz p * vz p.

(** Modelled from the spec: the distance helpers of
    [src/utils/geometry/vector.py] (not among the sources) are the "pairwise
    distance computation" of section 2: the Euclidean distance of two points
    and its square. The spec does not describe the stabilising [epsilon] of
    the helper, which is left out here. *)
#[export] Instance euclid : VectorLib := {|
  euclidean_distance := fun p q => sqrt (sqnorm (vsub p q));
  square_euclidean_distance := fun p q _ => sqnorm (vsub p q)
|}.

(** *** [smooth_lddt_loss] *)

Section SmoothLDDT.
Context {V : VectorLib}.

(** [delta_lm = torch.abs(delta_x_gt_lm - delta_x_lm)] *)
Definition delta_lm (pred_atoms gt_atoms : Vec3Array) (b l m : nat) : R :=
  let delta_x_lm := euclidean_distance (pred_atoms b l) (pred_atoms b m) in
  let delta_x_gt_lm := euclidean_distance (gt_atoms b l) (gt_atoms b m) in
  Rabs (delta_x_gt_lm - delta_x_lm).

Definition epsilon_lm (pred_atoms gt_atoms : Vec3Array) (b l m : nat) : R :=
  let d := delta_lm pred_atoms gt_atoms b l m in
  (sigmoid (0.5 - d) + sigmoid (1.0 - d) + sigmoid (2.0 - d) + sigmoid (4.0 - d))
  / 4.0.

(** [c_lm] after the inclusion radius, the mask and the self-term mask. *)
Definition c_lm (gt_atoms : Vec3Array) (atom_is_rna atom_is_dna : Tensor2)
    (mask : option Tensor2) (b l m : nat) : R :=
  let delta_x_gt_lm := euclidean_distance (gt_atoms b l) (gt_atoms b m) in
  let atom_is_nucleotide := atom_is_dna b l + atom_is_rna b l in
  let atom_not_nucleotide := 1.0 - atom_is_nucleotide in
  let c := lt_float delta_x_gt_lm 30.0 * atom_is_nucleotide
           + lt_float delta_x_gt_lm 15.0 * atom_not_nucleotide in
  let c := match mask with
           | Some mask => c * (mask b l * mask b m)
           | None => c
           end in
  let self_mask := 1.0 - eye l m in
  c * self_mask.

(** [bs, n_atoms = atom_is_rna.shape] are passed first. *)
Definition smooth_lddt_loss (bs n_atoms : nat)
    (pred_atoms gt_atoms : Vec3Array) (atom_is_rna atom_is_dna : Tensor2)
    (mask : option Tensor2) (epsilon : R) : option R :=
  let c := c_lm gt_atoms atom_is_rna atom_is_dna mask in
  let e := epsilon_lm pred_atoms gt_atoms in
  let denom := fun b => sum2 n_atoms n_atoms (c b) + epsilon in
  let lddt := fun b =>
    div (sum2 n_atoms n_atoms (fun l m => e b l m * c b l m)) (denom b) in
  let per_batch_loss := fun b => option_map (fun v => 1.0 - v) (lddt b) in
  torch_mean bs per_batch_loss.

End SmoothLDDT.

(** *** [mean_squared_error] and [mse_loss] *)

Section MSE.
Context {V : VectorLib} {A : AlignmentLib}.

(** Returns one value per batch element. *)
Definition mean_squared_error (n_atoms : nat) (pred_atoms gt_atoms : Vec3Array)
    (weights : Tensor2) (mask : option Tensor2) (epsilon : R)
    : nat -> option R :=
  fun b =>
  let mask := match mask with
              | None => ones_like weights
              | Some mask => mask
              end in
  let atom_mse := fun i =>
    square_euclidean_distance (pred_atoms b i) (gt_atoms b i) epsilon in
  let atom_mse := fun i => atom_mse i * mask b i in
  let weighted_mse := fun i => atom_mse i * weights b i in
  let sum_error := sum_n n_atoms weighted_mse in
  let denom := epsilon + sum_n n_atoms (mask b) in
  let mse := div sum_error denom in
  option_map (fun mse => mse / 3.0) mse.

Definition default_epsilon : R := 1e-5.

(** [mean_squared_error] is called without [epsilon] and uses its default. *)
Definition mse_loss (bs n_atoms : nat) (pred_atoms gt_atoms : Vec3Array)
    (timesteps : Tensor1) (weights : Tensor2) (mask : option Tensor2)
    (sd_data epsilon : R) : option R :=
  let aligned_gt_atoms :=
    weighted_rigid_align bs n_atoms gt_atoms pred_atoms weights mask in
  let mse :=
    mean_squared_error n_atoms pred_atoms aligned_gt_atoms weights mask
      default_epsilon in
  let scaling_factor := fun b =>
    div (timesteps b ^ 2 + sd_data ^ 2) ((timesteps b * sd_data) ^ 2 + epsilon) in
  let scaled_mse := fun b =>
    match scaling_factor b, mse b with
    | Some s, Some e => Some (s * e)
    | _, _ => None
    end in
  torch_mean bs scaled_mse.

End MSE.

(** *** [softmax_cross_entropy] and [distogram_loss] *)

(** [torch.linspace(start, end, steps)] *)
Definition linspace (start stop : R) (steps : nat) : list R :=
  match steps with
  | O => []
  | 1%nat => [start]
  | _ =>
      let step := (stop - start) / INR (steps - 1) in
      map (fun i => start + INR i * step) (seq 0 steps)
  end.

(** [F.log_softmax(logits, dim=-1)] on a vector of [n] logits. *)
Definition log_softmax (n : nat) (logits : nat -> R) (k : nat) : R :=
  logits k - ln (sum_n n (fun k' => exp (logits k'))).

Definition softmax_cross_entropy (n : nat) (logits labels : nat -> R) : R :=
  -1 * sum_n n (fun k => labels k * log_softmax n logits k).

(** [F.one_hot(c, num_classes)] *)
Definition one_hot (c : nat) : nat -> R :=
  fun k => if (k =? c)%nat then 1 else 0.

(** [torch.sum(dists > boundaries, dim=-1)] *)
Definition true_bins (boundaries : list R) (dists : R) : nat :=
  List.length (filter (fun bd => if Rlt_dec bd dists then true else false) boundaries).

(** The index [residue_constants.atom_order["CA"]] is the argument [ca_pos]
    ([src/common/residue_constants.py] is not among the sources).
    [bs, n_tokens = token_mask.shape] are passed first; [logits] is
    [[bs, n_tokens, n_tokens, no_bins]] and [all_atom_positions] is
    [[bs, n_tokens * 4]]. With [no_bins = 0], [torch.linspace] raises. *)
Definition distogram_loss (ca_pos : nat) (bs n_tokens : nat)
    (logits : nat -> nat -> nat -> nat -> R)
    (all_atom_positions : Vec3Array) (token_mask : Tensor2)
    (min_bin max_bin : R) (no_bins : nat) (eps : R) : option R :=
  match no_bins with
  | O => None
  | S _ =>
      let pseudo_beta := fun b i => all_atom_positions b (i * 4 + ca_pos)%nat in
      let pseudo_beta_mask := token_mask in
      let boundaries := linspace min_bin max_bin (no_bins - 1) in
      let boundaries := map (fun x => x ^ 2) boundaries in
      let dists := fun b i j => sqnorm (vsub (pseudo_beta b i) (pseudo_beta b j)) in
      let errors := fun b i j =>
        softmax_cross_entropy no_bins (logits b i j)
          (one_hot (true_bins boundaries (dists b i j))) in
      let square_mask := fun b i j => pseudo_beta_mask b i * pseudo_beta_mask b j in
      let denom := fun b => eps + sum2 n_tokens n_tokens (square_mask b) in
      let mean := fun b i =>
        div (sum_n n_tokens (fun j => errors b i j * square_mask b i j)) (denom b) in
      let mean := fun b => osum_n n_tokens (mean b) in
      torch_mean bs mean
  end.

(** *** [experimentally_resolved_loss] *)

(** [x.long()]: the integer part of [x], towards zero. *)
Definition long (x : R) : Z :=
  if Rle_dec 0 x then Int_part x else (- Int_part (- x))%Z.

(** [F.one_hot(c, num_classes=2)] accepts the classes 0 and 1. *)
Definition resolved_class_ok (c : Z) : bool := ((0 <=? c) && (c <? 2))%Z.

(** [logits] is [[bs, n_atoms, 2]]. The first sum runs over the atoms, the
    second over what is left, the batch axis; the quotient has one entry per
    batch element ([keepdim=True]). [None] is the error of [F.one_hot]. *)
Definition experimentally_resolved_loss (bs n_atoms : nat)
    (logits : nat -> nat -> nat -> R) (atom_exists atom_mask : Tensor2)
    (eps : R) : option (nat -> option R) :=
  if forallb (fun b =>
       forallb (fun i => resolved_class_ok (long (atom_exists b i)))
               (seq 0 n_atoms))
       (seq 0 bs)
  then
    let is_resolved := fun b i => one_hot (Z.to_nat (long (atom_exists b i))) in
    let errors := fun b i => softmax_cross_entropy 2 (logits b i) (is_resolved b i) in
    let loss := fun b => sum_n n_atoms (fun i => errors b i * atom_mask b i) in
    let loss := sum_n bs loss in
    Some (fun b => div loss (eps + sum_n n_atoms (atom_mask b)))
  else None.

(** *** [AlphaFold3Loss] *)

(** The outcome of a call that may raise. *)
Inductive result (X : Type) : Type :=
| Ok (x : X)
| Raised (exn : string).
Arguments Ok {X} x.
Arguments Raised {X} exn.

(** What [_aggregate_losses] needs of a loss value: a 0-dim tensor. *)
Class LossScalar (T : Type) : Type := {
  ls_zero : T;                 (* [0.0] and [loss.new_tensor(0.)] *)
  ls_add : T -> T -> T;
  ls_mul : T -> T -> T;
  ls_isnan : T -> bool;        (* [torch.isnan] *)
  ls_isinf : T -> bool         (* [torch.isinf] *)
}.

Section Aggregate.
Context {T : Type} {LS : LossScalar T}.

(** A Python [dict] with string keys, in insertion order. *)
Definition dict : Type := list (string * T).

Fixpoint dict_set (d : dict) (k : string) (v : T) : dict :=
  match d with
  | [] => [(k, v)]
  | (k', v') :: d' =>
      if String.eqb k' k then (k, v) :: d' else (k', v') :: dict_set d' k v
  end.

Fixpoint dict_get (d : dict) (k : string) : option T :=
  match d with
  | [] => None
  | (k', v') :: d' => if String.eqb k' k then Some v' else dict_get d' k
  end.

(** The loop state: [cumulative_loss], the dict [losses] (updated in place)
    and the warnings logged so far. *)
Record agg_state : Type := {
  cumulative_loss : T;
  losses_now : dict;
  warnings : list string
}.

(** One turn of [for loss_name, loss in losses.items()]. [weight_of] is
    [self.config[loss_name].weight]; a missing entry raises. *)
Definition aggregate_step (weight_of : string -> option T)
    (st : agg_state) (item : string * T) : result agg_state :=
  let '(loss_name, loss) := item in
  match weight_of loss_name with
  | None => Raised loss_name
  | Some weight =>
      let '(loss, warned) :=
        if ls_isnan loss then
          (ls_zero, [(loss_name ++ " loss is NaN. Skipping...")%string])
        else if ls_isinf loss then
          (ls_zero, [(loss_name ++ " loss is inf. Skipping...")%string])
        else (loss, []) in
      Ok {| cumulative_loss := ls_add (cumulative_loss st) (ls_mul weight loss);
            losses_now := dict_set (losses_now st) loss_name loss;
            warnings := warnings st ++ warned |}
  end.

Fixpoint aggregate_loop (weight_of : string -> option T)
    (items : list (string * T)) (st : agg_state)
    : result agg_state * list string :=
  match items with
  | [] => (Ok st, warnings st)
  | item :: rest =>
      match aggregate_step weight_of st item with
      | Ok st' => aggregate_loop weight_of rest st'
      | Raised e => (Raised e, warnings st)
      end
  end.

(** Returns [(cumulative_loss, losses)], and the warnings logged. With an
    empty dict [cumulative_loss] is still the Python float [0.0], which has no
    [detach]. *)
Definition _aggregate_losses (weight_of : string -> option T) (losses : dict)
    : result (T * dict) * list string :=
  match aggregate_loop weight_of losses
          {| cumulative_loss := ls_zero; losses_now := losses; warnings := [] |} with
  | (Raised e, logged) => (Raised e, logged)
  | (Ok st, logged) =>
      match losses with
      | [] => (Raised "detach", logged)
      | _ :: _ =>
          let c := cumulative_loss st in
          let d := dict_set (losses_now st) "unscaled_loss" c in
          let d := dict_set d "loss" c in
          (Ok (c, d), logged)
      end
  end.

End Aggregate.

(** Loss values as IEEE-754 numbers of the format [(prec, emax)]: the
    0-dim tensors the aggregator receives. *)
Definition is_nan (x : spec_float) : bool :=
  match x with S754_nan => true | _ => false end.

Definition is_inf (x : spec_float) : bool :=
  match x with S754_infinity _ => true | _ => false end.

Definition ieee (prec emax : Z) : LossScalar spec_float := {|
  ls_zero := S754_zero false;
  ls_add := SFadd prec emax;
  ls_mul := SFmul prec emax;
  ls_isnan := is_nan;
  ls_isinf := is_inf
|}.

(** Loss values of the real-number model: a missing value is what
    [torch.isnan] finds. *)
Definition lift2 (f : R -> R -> R) (a b : option R) : option R :=
  match a, b with
  | Some x, Some y => Some (f x y)
  | _, _ => None
  end.

#[export] Instance real_loss : LossScalar (option R) := {|
  ls_zero := Some 0;
  ls_add := lift2 Rplus;
  ls_mul := lift2 Rmult;
  ls_isnan := fun a => match a with None => true | Some _ => false end;
  ls_isinf := fun _ => false
|}.

(** The configuration: per term a [weight] and the keyword arguments of its
    loss function. *)
Record DistogramConfig : Type := {
  distogram_weight : R;
  min_bin : R;
  max_bin : R;
  no_bins : nat;
  eps : R
}.

Record MseLossConfig : Type := {
  mse_loss_weight : R;
  sd_data : R;
  epsilon : R
}.

Record LossConfig : Type := {
  distogram : DistogramConfig;
  mse_loss_config : MseLossConfig;
  smooth_lddt_loss_weight : R
}.

(** [self.config[loss_name].weight] *)
Definition config_weight (config : LossConfig) (loss_name : string)
    : option (option R) :=
  if String.eqb loss_name "distogram" then
    Some (Some (distogram_weight (distogram config)))
  else if String.eqb loss_name "smooth_lddt_loss" then
    Some (Some (smooth_lddt_loss_weight config))
  else if String.eqb loss_name "mse_loss" then
    Some (Some (mse_loss_weight (mse_loss_config config)))
  else None.

(** The model outputs and the batch, with the sizes of the batch. *)
Record ModelOutputs : Type := {
  distogram_logits : nat -> nat -> nat -> nat -> R;
  denoised_atoms : Vec3Array;
  augmented_gt_atoms : Vec3Array;
  timesteps : Tensor1
}.

Record Batch : Type := {
  bs : nat;
  n_tokens : nat;
  n_atoms : nat;
  all_atom_positions : Vec3Array;  (* [bs, n_tokens * 4] *)
  token_mask : Tensor2;            (* [bs, n_tokens] *)
  atom_exists : Tensor2            (* [bs, n_atoms] *)
}.

Section AlphaFold3Loss.
Context {V : VectorLib} {A : AlignmentLib}.
Variable ca_pos : nat.
Variable config : LossConfig.

Definition _compute_losses (out : ModelOutputs) (batch : Batch)
    : list (string * option R) :=
  let losses := [] in
  let losses := losses ++ [("distogram"%string,
    distogram_loss ca_pos (bs batch) (n_tokens batch)
      (distogram_logits out) (all_atom_positions batch) (token_mask batch)
      (min_bin (distogram config)) (max_bin (distogram config))
      (no_bins (distogram config)) (eps (distogram config)))] in
  let losses := losses ++ [("smooth_lddt_loss"%string,
    smooth_lddt_loss (bs batch) (n_atoms batch)
      (denoised_atoms out) (augmented_gt_atoms out)
      (zeros_like (atom_exists batch)) (zeros_like (atom_exists batch))
      (Some (atom_exists batch)) default_epsilon)] in
  let losses := losses ++ [("mse_loss"%string,
    mse_loss (bs batch) (n_atoms batch)
      (denoised_atoms out) (augmented_gt_atoms out) (timesteps out)
      (atom_exists batch) (Some (atom_exists batch))
      (sd_data (mse_loss_config config)) (epsilon (mse_loss_config config)))] in
  losses.

(** Returns the cumulative loss, with the breakdown when it is asked for. *)
Definition forward (out : ModelOutputs) (batch : Batch) (_return_breakdown : bool)
    : result (option R * option (list (string * option R))) * list string :=
  let losses := _compute_losses out batch in
  match _aggregate_losses (config_weight config) losses with
  | (Raised e, logged) => (Raised e, logged)
  | (Ok (cumulative_loss, losses), logged) =>
      if _return_breakdown then (Ok (cumulative_loss, Some losses), logged)
      else (Ok (cumulative_loss, None), logged)
  end.

End AlphaFold3Loss.

(** *** The contract of the rigid alignment *)

Record Mat3 : Type := mkMat3 {
  m11 : R; m12 : R; m13 : R;
  m21 : R; m22 : R; m23 : R;
  m31 : R; m32 : R; m33 : R
}.

Definition I3 : Mat3 := mkMat3 1 0 0 0 1 0 0 0 1.

Definition mat_mul (a b : Mat3) : Mat3 :=
  mkMat3
    (m11 a * m11 b + m12 a * m21 b + m13 a * m31 b)
    (m11 a * m12 b + m12 a * m22 b + m13 a * m32 b)
    (m11 a * m13 b + m12 a * m23 b + m13 a * m33 b)
    (m21 a * m11 b + m22 a * m21 b + m23 a * m31 b)
    (m21 a * m12 b + m22 a * m22 b + m23 a * m32 b)
    (m21 a * m13 b + m22 a * m23 b + m23 a * m33 b)
    (m31 a * m11 b + m32 a * m21 b + m33 a * m31 b)
    (m31 a * m12 b + m32 a * m22 b + m33 a * m32 b)
    (m31 a * m13 b + m32 a * m23 b + m33 a * m33 b).

Definition transpose (a : Mat3) : Mat3 :=
  mkMat3 (m11 a) (m21 a) (m31 a) (m12 a) (m22 a) (m32 a) (m13 a) (m23 a) (m33 a).

Definition det (a : Mat3) : R :=
  m11 a * (m22 a * m33 a - m23 a * m32 a)
  - m12 a * (m21 a * m33 a - m23 a * m31 a)
  + m13 a * (m21 a * m32 a - m22 a * m31 a).

Definition mat_vec (a : Mat3) (p : Vec3) : Vec3 :=
  mkVec3 (m11 a * vx p + m12 a * vy p + m13 a * vz p)
         (m21 a * vx p + m22 a * vy p + m23 a * vz p)
         (m31 a * vx p + m32 a * vy p + m33 a * vz p).

Definition vplus (p q : Vec3) : Vec3 :=
  mkVec3 (vx p + vx q) (vy p + vy q) (vz p + vz q).

(** A rotation: orthogonal with determinant 1 (no scaling, no reflection). *)
Definition is_rotation (M : Mat3) : Prop :=
  mat_mul (transpose M) M = I3 /\ det M = 1.

(** The rigid transform [p |-> M p + t]. *)
Definition rigid (M : Mat3) (t : Vec3) (p : Vec3) : Vec3 :=
  vplus (mat_vec M p) t.

(** The weighted squared deviation of [moved] from [reference] on one batch
    element; a missing mask counts as all ones. *)
Definition alignment_cost (n : nat) (weights mask : nat -> R)
    (moved reference : nat -> Vec3) : R :=
  sum_n n (fun i => weights i * mask i * sqnorm (vsub (moved i) (reference i))).

Definition mask_or_ones (mask : option Tensor2) : Tensor2 :=
  match mask with
  | None => fun _ _ => 1
  | Some mask => mask
  end.

(** Modelled from the spec: the contract of [weighted_rigid_align] of
    [src/utils/geometry/alignment.py] (not among the sources), section 6 and
    the glossary: on every batch element the result is the image of the moving
    points [x] under a rotation and translation that minimises the weighted
    squared distance to the reference points [x_gt]. *)
Definition least_squares_optimal {A : AlignmentLib} (bs n : nat)
    (x x_gt : Vec3Array) (weights : Tensor2) (mask : option Tensor2) : Prop :=
  forall b, (b < bs)%nat ->
  exists M t,
    is_rotation M /\
    (forall i, (i < n)%nat ->
       weighted_rigid_align bs n x x_gt weights mask b i = rigid M t (x b i)) /\
    (forall M' t', is_rotation M' ->
       alignment_cost n (weights b) (mask_or_ones mask b)
         (fun i => rigid M t (x b i)) (x_gt b)
       <= alignment_cost n (weights b) (mask_or_ones mask b)
            (fun i => rigid M' t' (x b i)) (x_gt b)).

End Losses.

(* ================================================================== *)
(** * Part II. Properties *)
(* ================================================================== *)

(** ** The distogram bins *)

Module DistogramFacts.
Import Embedders.
Local Open Scope Q_scope.

(** The channels, by recursion on the list of lower edges: the upper edge of
    a bin is the next lower edge, and [inf] for the last bin. *)
Fixpoint bins_of (lower : list Q) (inf d2 : Q) : list Q :=
  match lower with
  | [] => []
  | lo :: rest =>
      b2q (Qgtb d2 lo && Qltb d2 (hd inf rest)) :: bins_of rest inf d2
  end.

(** A channel vector with exactly one 1, as [F.one_hot] builds it. *)
Definition is_one_hot (chans : list Q) : Prop :=
  exists k, (k < List.length chans)%nat /\ chans = one_hot (List.length chans) (Z.of_nat k).

Lemma Qgtb_true a b : Qgtb a b = true <-> b < a.
Proof.
  unfold Qgtb. rewrite negb_true_iff.
  split; intro H.
  - apply Qnot_le_lt. intro Hle. apply Qle_bool_iff in Hle. congruence.
  - destruct (Qle_bool a b) eqn:E; auto.
    apply Qle_bool_iff in E. lra.
Qed.

Lemma Qgtb_false a b : Qgtb a b = false <-> a <= b.
Proof.
  unfold Qgtb. rewrite negb_false_iff. apply Qle_bool_iff.
Qed.

Lemma Qltb_true a b : Qltb a b = true <-> a < b.
Proof. unfold Qltb. apply (Qgtb_true b a). Qed.

Lemma Qltb_false a b : Qltb a b = false <-> b <= a.
Proof. unfold Qltb. apply (Qgtb_false b a). Qed.

Lemma combine_bins_of (lower : list Q) (inf d2 : Q) :
  map (fun lu => b2q (Qgtb d2 (fst lu) && Qltb d2 (snd lu)))
      (combine lower (tl lower ++ [inf]))
  = bins_of lower inf d2.
Proof.
  induction lower as [|a l IH]; [reflexivity|].
  destruct l as [|b l']; [reflexivity|].
  cbn [tl app combine map fst snd bins_of hd].
  f_equal. exact IH.
Qed.

Lemma dgram_channels_bins_of min_bin max_bin no_bins inf d2 :
  dgram_channels min_bin max_bin no_bins inf d2
  = bins_of (dgram_lower min_bin max_bin no_bins) inf d2.
Proof. unfold dgram_channels, dgram_upper. apply combine_bins_of. Qed.

Lemma bins_of_length lower inf d2 : List.length (bins_of lower inf d2) = List.length lower.
Proof. induction lower; simpl; congruence. Qed.

(** Below every lower edge no channel is set. *)
Lemma bins_of_below lower inf d2 :
  Forall (fun lo => d2 <= lo) lower ->
  bins_of lower inf d2 = repeat 0 (List.length lower).
Proof.
  induction 1 as [|lo rest Hlo _ IH]; [reflexivity|].
  simpl. rewrite IH.
  apply Qgtb_false in Hlo. rewrite Hlo. reflexivity.
Qed.

(** At or above [inf] no channel is set. *)
Lemma bins_of_above lower inf d2 :
  Forall (fun lo => lo < inf) lower -> inf <= d2 ->
  bins_of lower inf d2 = repeat 0 (List.length lower).
Proof.
  intros Hall Hinf.
  induction Hall as [|lo rest Hlo Hrest IH]; [reflexivity|].
  simpl. rewrite IH.
  assert (Hup : Qltb d2 (hd inf rest) = false).
  { apply Qltb_false. destruct Hrest as [|lo' rest' Hlo' _]; simpl; lra. }
  rewrite Hup, andb_false_r. reflexivity.
Qed.

Lemma sorted_tail_above (lo : Q) (rest : list Q) (d2 : Q) :
  Forall (Qlt lo) rest -> d2 <= lo -> Forall (fun x => d2 <= x) rest.
Proof.
  intros H Hd. eapply Forall_impl; [|exact H].
  intros x Hx. simpl in Hx. lra.
Qed.

(** On a lower edge no channel is set. *)
Lemma bins_of_on_edge lower inf d2 :
  StronglySorted Qlt lower ->
  (exists lo, In lo lower /\ d2 == lo) ->
  bins_of lower inf d2 = repeat 0 (List.length lower).
Proof.
  induction 1 as [|lo rest Hs IH Hall]; intros [x [Hin Hx]]; [contradiction|].
  destruct Hin as [-> | Hin].
  - apply bins_of_below. constructor; [lra|].
    apply (sorted_tail_above x); [exact Hall | lra].
  - simpl. rewrite IH by (exists x; auto).
    assert (Hup : Qltb d2 (hd inf rest) = false).
    { apply Qltb_false. destruct rest as [|lo' rest']; [contradiction|].
      simpl. destruct Hin as [-> | Hin]; [lra|].
      inversion Hs as [|? ? _ Hall']; subst.
      rewrite Forall_forall in Hall'. specialize (Hall' x Hin). lra. }
    rewrite Hup, andb_false_r. reflexivity.
Qed.

Lemma map_seq_succ {X : Type} (f : nat -> X) (n : nat) :
  map f (seq 0 (S n)) = f 0%nat :: map (fun i => f (S i)) (seq 0 n).
Proof.
  cbn [seq map]. f_equal.
  rewrite <- seq_shift, map_map. reflexivity.
Qed.

Lemma one_hot_first n : one_hot (S n) 0 = 1 :: repeat 0 n.
Proof.
  unfold one_hot. rewrite map_seq_succ. f_equal.
  induction n as [|n IH]; [reflexivity|].
  rewrite map_seq_succ. cbn [repeat]. f_equal.
  rewrite <- IH. apply map_ext. intros i.
  destruct (Z.of_nat (S (S i))) eqn:E; try reflexivity; lia.
Qed.

Lemma one_hot_shift n k :
  one_hot (S n) (Z.of_nat (S k)) = 0 :: one_hot n (Z.of_nat k).
Proof.
  unfold one_hot. rewrite map_seq_succ. f_equal.
  apply map_ext. intros i.
  destruct (Z.eqb_spec (Z.of_nat (S i)) (Z.of_nat (S k)));
    destruct (Z.eqb_spec (Z.of_nat i) (Z.of_nat k)); try reflexivity; lia.
Qed.

Lemma one_hot_length n c : List.length (one_hot n c) = n.
Proof. unfold one_hot. rewrite length_map, length_seq. reflexivity. Qed.

Lemma nth_map_seq {X : Type} (f : nat -> X) (d : X) :
  forall n s k, (k < n)%nat -> nth k (map f (seq s n)) d = f (s + k)%nat.
Proof.
  induction n as [|n IH]; intros s [|k] Hk; simpl; try lia.
  - f_equal. lia.
  - rewrite IH by lia. f_equal. lia.
Qed.

Lemma one_hot_hit n k : (k < n)%nat -> nth k (one_hot n (Z.of_nat k)) 0 = 1.
Proof.
  intros Hk. unfold one_hot.
  rewrite nth_map_seq by exact Hk.
  simpl. rewrite Z.eqb_refl. reflexivity.
Qed.

Lemma nth_repeat_zero n k : nth k (repeat 0 n) 0 = 0.
Proof.
  revert k. induction n as [|n IH]; intros [|k]; simpl; auto.
Qed.

(** A one-hot vector is not the zero vector. *)
Lemma one_hot_not_zeros (chans : list Q) :
  is_one_hot chans -> chans <> repeat 0 (List.length chans).
Proof.
  intros [k [Hk Heq]] Hz.
  assert (H1 : nth k chans 0 = 1) by (rewrite Heq; apply one_hot_hit; exact Hk).
  rewrite Hz, nth_repeat_zero in H1. discriminate H1.
Qed.

(** Strictly between the first lower edge and [inf], and off every edge,
    exactly one channel is set. *)
Lemma bins_of_inside rest : forall lo inf d2,
  StronglySorted Qlt (lo :: rest) ->
  Forall (fun x => x < inf) (lo :: rest) ->
  lo < d2 -> d2 < inf ->
  (forall x, In x (lo :: rest) -> ~ d2 == x) ->
  exists k, (k < S (List.length rest))%nat /\
    bins_of (lo :: rest) inf d2 = one_hot (S (List.length rest)) (Z.of_nat k).
Proof.
  induction rest as [|lo' rest' IH]; intros lo inf d2 Hs Hinf Hlo Hd Hoff.
  - exists 0%nat. split; [simpl; lia|].
    simpl. apply Qgtb_true in Hlo. apply Qltb_true in Hd.
    rewrite Hlo, Hd. reflexivity.
  - inversion Hs as [|? ? Hs' Hall]; subst.
    inversion Hinf as [|? ? _ Hinf']; subst.
    destruct (Qlt_le_dec d2 lo') as [Hlt | Hge].
    + exists 0%nat. split; [simpl; lia|].
      change (Z.of_nat 0) with 0%Z. rewrite one_hot_first.
      cbn [bins_of hd].
      apply Qgtb_true in Hlo. apply Qltb_true in Hlt as Hlt'.
      rewrite Hlo, Hlt'. f_equal.
      apply (bins_of_below (lo' :: rest')). constructor; [lra|].
      inversion Hs' as [|? ? _ Hall']; subst.
      apply (sorted_tail_above lo'); [exact Hall' | lra].
    + assert (Hneq : ~ d2 == lo') by (apply Hoff; right; left; reflexivity).
      assert (Hgt : lo' < d2).
      { destruct (Qlt_le_dec lo' d2) as [H|H]; [exact H|].
        exfalso. apply Hneq. apply Qle_antisym; assumption. }
      destruct (IH lo' inf d2 Hs' Hinf' Hgt Hd) as [k [Hk Heq]].
      { intros x Hx. apply Hoff. right. exact Hx. }
      exists (S k). split; [simpl in *; lia|].
      change (List.length (lo' :: rest')) with (S (List.length rest')).
      rewrite one_hot_shift, <- Heq.
      cbn [bins_of hd].
      apply Qltb_false in Hge. rewrite Hge, andb_false_r. reflexivity.
Qed.

(** *** The lower edges are increasing *)

Lemma map_seq_sorted (f : nat -> Q) :
  (forall i j, (i < j)%nat -> f i < f j) ->
  forall n s, StronglySorted Qlt (map f (seq s n)).
Proof.
  intros Hf. induction n as [|n IH]; intros s; simpl; constructor.
  - apply IH.
  - apply Forall_forall. intros x Hx.
    apply in_map_iff in Hx. destruct Hx as [j [<- Hj]].
    apply in_seq in Hj. apply Hf. lia.
Qed.

Lemma linspace_step_pos (start stop : Q) (n : nat) :
  start < stop -> (0 < n)%nat ->
  0 < (stop - start) / inject_Z (Z.of_nat n).
Proof.
  intros Hlt Hn.
  assert (HN : 0 < inject_Z (Z.of_nat n)).
  { change 0 with (inject_Z 0). rewrite <- Zlt_Qlt. lia. }
  apply Qlt_shift_div_l; [exact HN | lra].
Qed.

Lemma linspace_sorted (start stop : Q) (steps : nat) :
  start < stop -> StronglySorted Qlt (linspace start stop steps).
Proof.
  intros Hlt. unfold linspace.
  destruct steps as [|[|n]]; [constructor | repeat constructor |].
  apply map_seq_sorted. intros i j Hij.
  pose proof (linspace_step_pos start stop (S (S n) - 1) Hlt ltac:(lia)) as Hstep.
  assert (Hi : inject_Z (Z.of_nat i) < inject_Z (Z.of_nat j))
    by (rewrite <- Zlt_Qlt; lia).
  nra.
Qed.

Lemma linspace_bounds (start stop : Q) (steps : nat) :
  start < stop ->
  Forall (fun x => start <= x /\ x <= stop) (linspace start stop steps).
Proof.
  intros Hlt. unfold linspace.
  destruct steps as [|[|n]]; [constructor | repeat constructor; lra |].
  apply Forall_forall. intros x Hx.
  apply in_map_iff in Hx. destruct Hx as [i [<- Hi]].
  apply in_seq in Hi.
  set (N := inject_Z (Z.of_nat (S (S n) - 1))).
  pose proof (linspace_step_pos start stop (S (S n) - 1) Hlt ltac:(lia)) as Hstep.
  fold N in Hstep.
  assert (HN : 0 < N).
  { unfold N. change 0 with (inject_Z 0). rewrite <- Zlt_Qlt. lia. }
  assert (Hfull : N * ((stop - start) / N) == stop - start)
    by (apply Qmult_div_r; lra).
  assert (Hi0 : 0 <= inject_Z (Z.of_nat i))
    by (change 0 with (inject_Z 0); rewrite <- Zle_Qle; lia).
  assert (HiN : inject_Z (Z.of_nat i) <= N)
    by (unfold N; rewrite <- Zle_Qle; lia).
  split; nra.
Qed.

Lemma dgram_lower_sorted min_bin max_bin no_bins :
  0 <= min_bin -> min_bin < max_bin ->
  StronglySorted Qlt (dgram_lower min_bin max_bin no_bins).
Proof.
  intros H0 Hlt. unfold dgram_lower.
  pose proof (linspace_sorted min_bin max_bin no_bins Hlt) as Hs.
  pose proof (linspace_bounds min_bin max_bin no_bins Hlt) as Hb.
  induction Hs as [|a l Hs IH Hall]; simpl; constructor.
  - apply IH. inversion Hb; assumption.
  - inversion Hb as [|? ? [Ha _] Hb']; subst.
    apply Forall_forall. intros y Hy.
    apply in_map_iff in Hy. destruct Hy as [x [<- Hx]].
    rewrite Forall_forall in Hall. specialize (Hall x Hx).
    unfold sq. nra.
Qed.

Lemma dgram_lower_below_inf min_bin max_bin no_bins inf :
  0 <= min_bin -> min_bin < max_bin -> sq max_bin < inf ->
  Forall (fun x => x < inf) (dgram_lower min_bin max_bin no_bins).
Proof.
  intros H0 Hlt Hinf. unfold dgram_lower.
  pose proof (linspace_bounds min_bin max_bin no_bins Hlt) as Hb.
  apply Forall_forall. intros y Hy.
  apply in_map_iff in Hy. destruct Hy as [x [<- Hx]].
  rewrite Forall_forall in Hb. destruct (Hb x Hx) as [Hx0 Hx1].
  unfold sq in *. nra.
Qed.

Lemma dgram_lower_length min_bin max_bin no_bins :
  List.length (dgram_lower min_bin max_bin no_bins) = no_bins.
Proof.
  unfold dgram_lower, linspace. rewrite length_map.
  destruct no_bins as [|[|n]]; try reflexivity.
  rewrite length_map, length_seq. reflexivity.
Qed.

Lemma dgram_lower_head min_bin max_bin no_bins :
  (1 <= no_bins)%nat ->
  exists lo rest, dgram_lower min_bin max_bin no_bins = lo :: rest /\ lo == sq min_bin.
Proof.
  intros Hn. unfold dgram_lower, linspace.
  destruct no_bins as [|[|n]]; [lia | |].
  - exists (sq min_bin), []. split; reflexivity.
  - rewrite map_seq_succ. cbn [map].
    eexists _, _. split; [reflexivity|].
    unfold sq. setoid_replace (min_bin + inject_Z (Z.of_nat 0) *
      ((max_bin - min_bin) / inject_Z (Z.of_nat (S (S n) - 1)))) with min_bin.
    + reflexivity.
    + change (inject_Z (Z.of_nat 0)) with 0. ring.
Qed.

(** *** Channel by channel *)



Lemma last_upper_is_inf (lower : list Q) (inf : Q) :
  (1 <= List.length lower)%nat ->
  nth (List.length lower - 1) (tl lower ++ [inf]) 0 = inf.
Proof.
  intros Hn. destruct lower as [|lo rest]; [simpl in Hn; lia|].
  cbn [tl List.length]. rewrite app_nth2 by lia.
  replace (S (List.length rest) - 1 - List.length rest)%nat with 0%nat by lia.
  reflexivity.
Qed.


(** The theorem at the default bins, for two tokens 4.5 apart: the squared
    distance is the edge between the first two bins. *)
Definition two_tokens (gap : Q) : nat -> Vec3 :=
  fun k => match k with O => (0, 0, 0) | S _ => (gap, 0, 0) end.


(** In exact arithmetic the function is [dgram_from_positions], and the
    boundaries of well-formed bins are increasing, start at [min_bin ** 2] and
    stay below [inf]. *)
Lemma dgram_from_positions_exact (pos : nat -> Vec3) (min_bin max_bin : Q)
    (no_bins : nat) (inf : Q) (i j : nat) :
  dgram_from_positions_in exact_dtype pos min_bin max_bin no_bins inf i j
  = dgram_from_positions pos min_bin max_bin no_bins inf i j.
Proof. reflexivity. Qed.

Lemma exact_boundaries (min_bin max_bin : Q) (no_bins : nat) (inf : Q) :
  0 <= min_bin -> min_bin < max_bin -> (1 <= no_bins)%nat -> sq max_bin < inf ->
  let lower := linspace_sq (TensorDtype := exact_dtype) min_bin max_bin no_bins in
  StronglySorted Qlt lower /\ Forall (fun lo => lo < inf) lower /\
  lower <> [] /\ hd inf lower == sq min_bin.
Proof.
  intros H0 Hlt Hn Hinf lower. unfold lower. cbn [linspace_sq exact_dtype].
  split; [apply dgram_lower_sorted; assumption|].
  split; [apply dgram_lower_below_inf; assumption|].
  destruct (dgram_lower_head min_bin max_bin no_bins Hn) as [lo [rest [Hlow Hlo]]].
  rewrite Hlow. split; [discriminate | exact Hlo].
Qed.

(** C5, as the code has it. For every position tensor and every ordered pair,
    take the squared distance [d2] and the bin boundaries [lower] as the
    tensor dtype computes them. When the boundaries are increasing and below
    [inf], the bin vector is either all zero or one-hot (no two bins overlap),
    and it is one-hot exactly when [d2] lies strictly between the first
    boundary and [inf] and is not equal to a boundary. *)
Theorem dgram_one_hot_off_edges (D : TensorDtype) (pos : nat -> Vec3)
    (min_bin max_bin : Q) (no_bins : nat) (inf : Q) (i j : nat) :
  let d2 := sum_sq_diff (pos i) (pos j) in
  let lower := linspace_sq min_bin max_bin no_bins in
  let chans := dgram_from_positions_in D pos min_bin max_bin no_bins inf i j in
  StronglySorted Qlt lower -> Forall (fun lo => lo < inf) lower -> lower <> [] ->
  (chans = repeat 0 (List.length lower) \/ is_one_hot chans) /\
  (is_one_hot chans <->
     hd inf lower < d2 /\ d2 < inf /\ forall lo, In lo lower -> ~ d2 == lo).
Proof.
  intros d2 lower chans Hs Hb Hne.
  assert (Hch : chans = bins_of lower inf d2) by apply combine_bins_of.
  assert (Hclen : List.length chans = List.length lower)
    by (rewrite Hch; apply bins_of_length).
  clearbody chans lower d2.
  destruct lower as [|lo rest]; [contradiction|]. cbn [hd].
  assert (Hzero :
    d2 <= lo \/ inf <= d2 \/ (exists x, In x (lo :: rest) /\ d2 == x) ->
    chans = repeat 0 (List.length (lo :: rest))).
  { intros [Hlow' | [Hhigh | Hedge]]; rewrite Hch.
    - apply bins_of_below.
      inversion Hs as [|? ? _ Hall]; subst.
      constructor; [lra|]. apply (sorted_tail_above lo); [exact Hall | lra].
    - apply bins_of_above; assumption.
    - apply bins_of_on_edge; assumption. }
  assert (Hone :
    lo < d2 -> d2 < inf -> (forall x, In x (lo :: rest) -> ~ d2 == x) ->
    is_one_hot chans).
  { intros Ha Hb' Hoff.
    destruct (bins_of_inside rest lo inf d2 Hs Hb Ha Hb' Hoff) as [k [Hk Heq]].
    exists k. rewrite Hclen. split; [exact Hk|].
    rewrite Hch. exact Heq. }
  assert (Hdec : (exists x, In x (lo :: rest) /\ d2 == x) \/
                 (forall x, In x (lo :: rest) -> ~ d2 == x)).
  { destruct (existsb (Qeq_bool d2) (lo :: rest)) eqn:E.
    - left. apply existsb_exists in E. destruct E as [x [Hx Hq]].
      exists x. split; [exact Hx | apply Qeq_bool_iff; exact Hq].
    - right. intros x Hx Hq.
      assert (existsb (Qeq_bool d2) (lo :: rest) = true); [|congruence].
      apply existsb_exists. exists x. split; [exact Hx | apply Qeq_bool_iff; exact Hq]. }
  split.
  - destruct (Qlt_le_dec lo d2) as [Ha | Ha]; [|left; apply Hzero; auto].
    destruct (Qlt_le_dec d2 inf) as [Hb' | Hb']; [|left; apply Hzero; auto].
    destruct Hdec as [He | He]; [left; apply Hzero; auto|].
    right. apply Hone; assumption.
  - split.
    + intros Hoh. pose proof (one_hot_not_zeros chans Hoh) as Hnz.
      rewrite Hclen in Hnz.
      destruct (Qlt_le_dec lo d2) as [Ha | Ha];
        [|exfalso; apply Hnz, Hzero; auto].
      destruct (Qlt_le_dec d2 inf) as [Hb' | Hb'];
        [|exfalso; apply Hnz, Hzero; auto].
      destruct Hdec as [He | He]; [exfalso; apply Hnz, Hzero; auto|].
      auto.
    + intros [Ha [Hb' Hoff]]. apply Hone; assumption.
Qed.

(** The theorem at the default bins, where the boundaries are exact: two
    tokens 5 apart, whose squared distance 25 is computed exactly, fall off
    every boundary and get a one-hot vector. *)
Lemma dgram_one_hot_off_edges_witness :
  is_one_hot (dgram_from_positions_in exact_dtype (two_tokens 5) default_min_bin
                default_max_bin default_no_bins default_inf 0 1).
Proof.
  assert (H0 : 0 <= default_min_bin) by (unfold default_min_bin; lra).
  assert (H1 : default_min_bin < default_max_bin)
    by (unfold default_min_bin, default_max_bin; lra).
  assert (H2 : (1 <= default_no_bins)%nat) by (unfold default_no_bins; lia).
  assert (H3 : sq default_max_bin < default_inf)
    by (unfold sq, default_max_bin, default_inf; lra).
  destruct (exact_boundaries default_min_bin default_max_bin default_no_bins
              default_inf H0 H1 H2 H3) as [Hs [Hb [Hne _]]].
  apply (proj2 (dgram_one_hot_off_edges exact_dtype (two_tokens 5) default_min_bin
                  default_max_bin default_no_bins default_inf 0 1 Hs Hb Hne)).
  split; [vm_compute; reflexivity|]. split; [vm_compute; reflexivity|].
  intros lo Hin Heq.
  assert (E : existsb (Qeq_bool (sum_sq_diff (TensorDtype := exact_dtype)
                                   (two_tokens 5 0%nat) (two_tokens 5 1%nat)))
                (linspace_sq (TensorDtype := exact_dtype) default_min_bin
                   default_max_bin default_no_bins) = true).
  { apply existsb_exists. exists lo. split; [exact Hin|].
    apply Qeq_bool_iff. exact Heq. }
  vm_compute in E. discriminate E.
Defined.

(** C5 as stated fails: two tokens 4.5 apart are at a distance within
    [[min_bin, max_bin)], their squared distance is at least [min_bin ** 2],
    and no channel is set. *)
Lemma dgram_edge_distance_not_one_hot :
  let pos := two_tokens (9 # 2) in
  let chans := dgram_from_positions pos default_min_bin default_max_bin
                 default_no_bins default_inf 0 1 in
  sq default_min_bin <= sqdist (pos 0%nat) (pos 1%nat) /\
  sqdist (pos 0%nat) (pos 1%nat) < sq default_max_bin /\
  chans = repeat 0 39 /\
  ~ is_one_hot chans.
Proof.
  intros pos chans.
  assert (Hz : chans = repeat 0 39) by (vm_compute; reflexivity).
  split; [vm_compute; discriminate|].
  split; [vm_compute; reflexivity|].
  split; [exact Hz|].
  intros Hoh. apply (one_hot_not_zeros chans Hoh).
  rewrite Hz. reflexivity.
Qed.

End DistogramFacts.

(** ** The template pair features across chains *)

Module TemplateFeatFacts.
Import Embedders.
Local Open Scope Q_scope.

Lemma vscale_app (a b : list Q) (s : Q) :
  vscale (a ++ b) s = vscale a s ++ vscale b s.
Proof. apply map_app. Qed.

Lemma vscale_length (a : list Q) (s : Q) : List.length (vscale a s) = List.length a.
Proof. apply length_map. Qed.

Lemma template_distogram_length F t i j :
  List.length (template_distogram F t i j) = 39%nat.
Proof.
  unfold template_distogram, dgram_from_positions.
  rewrite DistogramFacts.dgram_channels_bins_of, DistogramFacts.bins_of_length.
  apply DistogramFacts.dgram_lower_length.
Qed.

Lemma vscale_by_zero (a : list Q) (s m : Q) :
  s == 0 -> Forall (fun x => x == 0) (vscale (vscale a s) m).
Proof.
  intros Hs. unfold vscale. rewrite map_map.
  apply Forall_forall. intros y Hy.
  apply in_map_iff in Hy. destruct Hy as [x [<- _]].
  rewrite Hs. ring.
Qed.

(** The two blocks of the concatenated feature: the chain-masked block of
    40 channels and the residue-type block of 44 channels. *)
Lemma template_feat_blocks F t i j :
  template_feat F t i j
  = vscale (vscale (template_distogram F t i j ++ [b_pseudo_beta_mask F t i j])
                   (same_asym_id F i j))
           (b_pseudo_beta_mask F t i j)
    ++ vscale (template_restype F t i ++ template_restype F t j)
              (b_pseudo_beta_mask F t i j).
Proof. unfold template_feat. apply vscale_app. Qed.

Lemma chain_block_length F t i j :
  List.length
    (vscale (vscale (template_distogram F t i j ++ [b_pseudo_beta_mask F t i j])
                    (same_asym_id F i j))
            (b_pseudo_beta_mask F t i j)) = 40%nat.
Proof.
  rewrite !vscale_length, length_app, template_distogram_length. reflexivity.
Qed.

(** Distinct integer chain identifiers below [10 ** 5] in magnitude are not
    [torch.isclose]. *)
Lemma isclose_distinct_ids (a b : Z) :
  a <> b -> (Z.abs b <= 99999)%Z ->
  isclose (inject_Z a) (inject_Z b) = false.
Proof.
  intros Hab Hb. unfold isclose.
  destruct (Qle_bool _ _) eqn:E; [|reflexivity].
  exfalso. apply Qle_bool_iff in E.
  assert (Hd : 1 <= Qabs (inject_Z a - inject_Z b)).
  { assert (Hz : (1 <= a - b \/ a - b <= -1)%Z) by lia.
    assert (Hq : inject_Z a - inject_Z b == inject_Z (a - b)).
    { unfold Z.sub. rewrite inject_Z_plus, inject_Z_opp. reflexivity. }
    rewrite Hq. apply Qabs_case; intros Hs.
    - destruct Hz as [Hz | Hz].
      + change 1 with (inject_Z 1). rewrite <- Zle_Qle. exact Hz.
      + exfalso. change 0 with (inject_Z 0) in Hs. rewrite <- Zle_Qle in Hs. lia.
    - destruct Hz as [Hz | Hz].
      + exfalso. change 0 with (inject_Z 0) in Hs. rewrite <- Zle_Qle in Hs. lia.
      + rewrite <- inject_Z_opp. change 1 with (inject_Z 1).
        rewrite <- Zle_Qle. lia. }
  assert (Hm : Qabs (inject_Z b) <= 99999).
  { apply Qabs_case; intros Hs.
    - change 99999 with (inject_Z 99999). rewrite <- Zle_Qle. lia.
    - rewrite <- inject_Z_opp. change 99999 with (inject_Z 99999).
      rewrite <- Zle_Qle. lia. }
  unfold atol, rtol in E. lra.
Qed.

(** C3, as the code has it. For every ordered pair of tokens whose chain
    identifiers are not [torch.isclose], the 39 distogram channels and the
    pair-validity channel of the template feature are zero whatever the
    distogram is; the 44 residue-type channels are concatenated after the
    chain mask and are only scaled by the pair-validity mask. *)
Theorem template_feat_cross_chain (F : TemplateFeatures) (t i j : nat) :
  isclose (asym_id F j) (asym_id F i) = false ->
  Forall (fun x => x == 0) (firstn 40 (template_feat F t i j)) /\
  skipn 40 (template_feat F t i j)
  = vscale (template_restype F t i ++ template_restype F t j)
           (b_pseudo_beta_mask F t i j).
Proof.
  intros Hfar. rewrite template_feat_blocks.
  pose proof (chain_block_length F t i j) as Hlen.
  split.
  - rewrite firstn_app, Hlen. change (40 - 40)%nat with 0%nat.
    rewrite firstn_O, app_nil_r, firstn_all2 by lia.
    apply vscale_by_zero. unfold same_asym_id. rewrite Hfar. reflexivity.
  - rewrite skipn_app, Hlen. change (40 - 40)%nat with 0%nat.
    rewrite skipn_all2 by lia. reflexivity.
Qed.

(** One template, two tokens on two chains (identifiers 0 and 1), both with a
    resolved pseudo-beta atom, residue type 0. *)
Definition two_chains : TemplateFeatures := {|
  n_templ := 1;
  n_token := 2;
  template_aatype := fun _ _ => 0%Z;
  template_pseudo_beta := fun _ => DistogramFacts.two_tokens 5;
  template_pseudo_beta_mask := fun _ _ => 1;
  asym_id := fun i => inject_Z (Z.of_nat i)
|}.

Lemma template_feat_cross_chain_witness :
  isclose (asym_id two_chains 1) (asym_id two_chains 0) = false /\
  Forall (fun x => x == 0) (firstn 40 (template_feat two_chains 0 0 1)).
Proof.
  assert (H : isclose (asym_id two_chains 1) (asym_id two_chains 0) = false)
    by (vm_compute; reflexivity).
  split; [exact H|].
  exact (proj1 (template_feat_cross_chain two_chains 0 0 1 H)).
Defined.

(** C3 as stated fails: on the cross-chain pair [(0, 1)] of [two_chains] the
    channel 40, the first residue-type channel of token 0, is 1. *)
Lemma template_feat_cross_chain_restype_kept :
  ~ asym_id two_chains 0 == asym_id two_chains 1 /\
  nth 40 (template_feat two_chains 0 0 1) 0 == 1 /\
  ~ Forall (fun x => x == 0) (template_feat two_chains 0 0 1).
Proof.
  assert (H40 : nth 40 (template_feat two_chains 0 0 1) 0 == 1)
    by (vm_compute; reflexivity).
  split; [vm_compute; discriminate|].
  split; [exact H40|].
  intros Hall. rewrite Forall_forall in Hall.
  assert (Hin : In (nth 40 (template_feat two_chains 0 0 1) 0)
                   (template_feat two_chains 0 0 1)).
  { apply nth_In. rewrite template_feat_blocks, length_app, chain_block_length.
    vm_compute. lia. }
  specialize (Hall _ Hin). rewrite H40 in Hall. discriminate Hall.
Qed.

End TemplateFeatFacts.

(** ** The template average without templates *)

Module TemplateEmbedderFacts.
Import Embedders Embedders.TemplateEmbedder.

Lemma relu_nan : relu S754_nan = S754_nan.
Proof. reflexivity. Qed.

Lemma div_zeros_by_zero prec emax (a : Act) :
  act_div prec emax (map (fun _ => fzero) a) (of_nat prec emax 0)
  = map (fun _ => S754_nan) a.
Proof.
  unfold act_div. rewrite map_map. apply map_ext. intros _. reflexivity.
Qed.

(** C4, on the code. With a template axis of size zero nothing is raised and
    nothing is skipped: the accumulator of zeros is divided by the template
    count 0, every channel handed to the output projection is NaN, and
    [forward] returns the projection of that tensor. *)
Theorem zero_templates_average_is_nan (prec emax : Z) (self : t)
    (n_token : nat) (aatype : nat -> nat -> Z) (pseudo_beta : nat -> nat -> Vec3)
    (pseudo_beta_mask : nat -> nat -> Q) (asym : nat -> Q)
    (z_trunk : PairAct) (pair_mask : nat -> nat -> Q) (inplace_safe : bool) :
  let F := {| n_templ := 0; n_token := n_token; template_aatype := aatype;
              template_pseudo_beta := pseudo_beta;
              template_pseudo_beta_mask := pseudo_beta_mask;
              asym_id := asym |} in
  (forall i j,
     template_average prec emax self F z_trunk pair_mask inplace_safe i j
     = map (fun _ => S754_nan) (proj_pair self (z_trunk i j))) /\
  exists out,
    forward prec emax self F z_trunk pair_mask inplace_safe = Some out /\
    forall i j,
      out i j = output_proj_linear self
                  (map (fun _ => S754_nan) (proj_pair self (z_trunk i j))).
Proof.
  intros F.
  assert (Havg : forall i j,
    template_average prec emax self F z_trunk pair_mask inplace_safe i j
    = map (fun _ => S754_nan) (proj_pair self (z_trunk i j))).
  { intros i j. unfold template_average, zeros_like. cbn [n_templ F seq fold_left].
    apply div_zeros_by_zero. }
  split; [exact Havg|].
  eexists. split; [reflexivity|].
  intros i j. cbv beta. rewrite Havg, map_map. reflexivity.
Qed.

End TemplateEmbedderFacts.

(** ** The initial pair representation *)

Module InputEmbedderFacts.
Import Embedders.
Local Open Scope Q_scope.

Lemma bcast_in_range (n i : nat) : (i < n)%nat -> bcast n i = i.
Proof.
  intros Hi. unfold bcast. destruct (Nat.eqb_spec n 1); [lia | reflexivity].
Qed.

Lemma bdim_same (n : nat) : bdim n n = Some n.
Proof. unfold bdim. rewrite Nat.eqb_refl. reflexivity. Qed.

Lemma bdim_one_r (n : nat) : bdim n 1 = Some n.
Proof.
  unfold bdim. destruct (Nat.eqb_spec n 1) as [->|Hn]; [reflexivity|].
  reflexivity.
Qed.

Lemma bdim_one_l (n : nat) : bdim 1 n = Some n.
Proof.
  unfold bdim. destruct (Nat.eqb_spec 1 n) as [<-|Hn]; reflexivity.
Qed.

Lemma add_unsqueezed (n : nat) (s : nat -> list Q) (f g : list Q -> list Q)
    (inplace : bool) :
  add (on_cells f (unsqueeze_m2 n s)) (on_cells g (unsqueeze_m3 n s)) inplace
  = Some {| rows := n; cols := n;
            cell := fun i j =>
              vadd (pair_get (on_cells f (unsqueeze_m2 n s)) i j)
                   (pair_get (on_cells g (unsqueeze_m3 n s)) i j) |}.
Proof.
  unfold add. cbn [rows cols on_cells unsqueeze_m2 unsqueeze_m3].
  rewrite bdim_one_r, bdim_one_l. reflexivity.
Qed.

Lemma add_same_shape (a b : PairTensor) (inplace : bool) :
  rows b = rows a -> cols b = cols a ->
  add a b inplace
  = Some {| rows := rows a; cols := cols a;
            cell := fun i j => vadd (pair_get a i j) (pair_get b i j) |}.
Proof.
  intros Hr Hc. unfold add. rewrite Hr, Hc, !bdim_same. reflexivity.
Qed.

(** C8. When the relative position encoding has the pair shape
    [[n_tokens, n_tokens]], [InputEmbedder.forward] returns, and for every
    pair of token indices [z_init[i, j]] is the sum of the projection
    [linear_proj_i] of [s_inputs[i]], the projection [linear_proj_j] of
    [s_inputs[j]] and the relative position encoding at [(i, j)]: an outer sum
    of two bias-free linear projections; [s_init] is the projection
    [linear_single] of [s_inputs]. *)
Theorem z_init_outer_sum (AtomFeatures : Type)
    (self : InputEmbedder AtomFeatures) (features : InputFeatures AtomFeatures)
    (inplace_safe : bool) :
  let n := n_tokens _ features in
  let rel := relpos _ self features (token_mask _ features) in
  aatype_ok _ features n = true ->
  rows rel = n -> cols rel = n ->
  exists s_inputs s_init z_init,
    InputEmbedder_forward _ self features inplace_safe
      = Some (s_inputs, s_init, z_init) /\
    InputFeatureEmbedder_forward _ (input_feature_embedder _ self) features n
      (atom_mask _ features) = Some s_inputs /\
    rows z_init = n /\ cols z_init = n /\
    (forall i, s_init i = LinearNoBias (linear_single _ self) (s_inputs i)) /\
    (forall i j, (i < n)%nat -> (j < n)%nat ->
       cell z_init i j
       = vadd (vadd (LinearNoBias (linear_proj_i _ self) (s_inputs i))
                    (LinearNoBias (linear_proj_j _ self) (s_inputs j)))
              (cell rel i j)).
Proof.
  intros n rel Hok Hrows Hcols.
  unfold InputEmbedder_forward. fold n. fold rel.
  destruct (InputFeatureEmbedder_forward AtomFeatures
              (input_feature_embedder AtomFeatures self) features n
              (atom_mask AtomFeatures features)) as [s|] eqn:Hs.
  2: { unfold InputFeatureEmbedder_forward in Hs. rewrite Hok in Hs. discriminate Hs. }
  rewrite add_unsqueezed.
  rewrite add_same_shape by (cbn [rows cols]; assumption).
  eexists _, _, _. split; [reflexivity|].
  split; [reflexivity|].
  cbn [rows cols cell]. split; [reflexivity|]. split; [reflexivity|].
  split; [reflexivity|].
  intros i j Hi Hj. unfold pair_get.
  cbn [rows cols cell on_cells unsqueeze_m2 unsqueeze_m3].
  rewrite Hrows, Hcols.
  rewrite !(bcast_in_range n i Hi), !(bcast_in_range n j Hj).
  reflexivity.
Qed.

(** Two tokens with the single channels 3 and 4, identity projections and a
    zero relative encoding: [z_init[0, 1]] is the sum 7. *)
Definition demo_features : InputFeatures unit := {|
  atom_features := tt;
  aatype := fun _ => 0%Z;
  atom_mask := fun _ => 1;
  n_tokens := 2;
  token_mask := fun _ => 1
|}.

Definition demo_embedder : InputEmbedder unit := {|
  input_feature_embedder := {|
    encoder := fun _ _ _ i => [inject_Z (Z.of_nat (3 + i))];
    restype_embedding := [repeat 0 21];
    output_ln := fun x => x |};
  linear_single := [[1]];
  linear_proj_i := [[1]];
  linear_proj_j := [[1]];
  relpos := fun _ _ => {| rows := 2; cols := 2; cell := fun _ _ => [0] |}
|}.

Lemma z_init_outer_sum_witness :
  exists s_inputs s_init z_init,
    InputEmbedder_forward _ demo_embedder demo_features false
      = Some (s_inputs, s_init, z_init) /\
    Forall2 Qeq (cell z_init 0 1) [7].
Proof.
  destruct (z_init_outer_sum unit demo_embedder demo_features false
              eq_refl eq_refl eq_refl)
    as [s_inputs [s_init [z_init [Hfwd [Hs [_ [_ [_ Hz]]]]]]]].
  exists s_inputs, s_init, z_init. split; [exact Hfwd|].
  rewrite (Hz 0%nat 1%nat) by (simpl; lia).
  injection Hs as <-. vm_compute. repeat constructor.
Defined.

End InputEmbedderFacts.

(** ** Sums, divisions and means over the reals *)

Module RealFacts.
Import Losses.
Local Open Scope R_scope.

Lemma sum_n_ext (n : nat) (f g : nat -> R) :
  (forall i, (i < n)%nat -> f i = g i) -> sum_n n f = sum_n n g.
Proof.
  induction n as [|n IH]; intros H; simpl; [reflexivity|].
  rewrite IH by (intros; apply H; lia). rewrite H by lia. reflexivity.
Qed.

Lemma sum_n_scale (n : nat) (c : R) (f : nat -> R) :
  sum_n n (fun i => c * f i) = c * sum_n n f.
Proof. induction n as [|n IH]; simpl; [ring | rewrite IH; ring]. Qed.

Lemma sum_n_zero (n : nat) (f : nat -> R) :
  (forall i, (i < n)%nat -> f i = 0) -> sum_n n f = 0.
Proof.
  induction n as [|n IH]; intros H; simpl; [reflexivity|].
  rewrite IH by (intros; apply H; lia). rewrite H by lia. ring.
Qed.

Lemma sum_n_nonneg (n : nat) (f : nat -> R) :
  (forall i, (i < n)%nat -> 0 <= f i) -> 0 <= sum_n n f.
Proof.
  induction n as [|n IH]; intros H; simpl; [lra|].
  assert (0 <= sum_n n f) by (apply IH; intros; apply H; lia).
  assert (0 <= f n) by (apply H; lia). lra.
Qed.

Lemma sum_n_above (n : nat) (c : R) (f : nat -> R) :
  (forall i, (i < n)%nat -> c < f i) -> (0 < n)%nat -> INR n * c < sum_n n f.
Proof.
  intros H Hn. induction n as [|n IH]; [lia|].
  rewrite S_INR. cbn [sum_n].
  assert (Hlast : c < f n) by (apply H; lia).
  destruct n as [|n].
  - simpl. lra.
  - assert (INR (S n) * c < sum_n (S n) f) by (apply IH; [intros; apply H|]; lia).
    lra.
Qed.

Lemma sum2_ext (n m : nat) (f g : nat -> nat -> R) :
  (forall i j, (i < n)%nat -> (j < m)%nat -> f i j = g i j) ->
  sum2 n m f = sum2 n m g.
Proof.
  intros H. unfold sum2. apply sum_n_ext. intros i Hi.
  apply sum_n_ext. intros j Hj. apply H; assumption.
Qed.

Lemma sum2_scale (n m : nat) (c : R) (f : nat -> nat -> R) :
  sum2 n m (fun i j => c * f i j) = c * sum2 n m f.
Proof.
  unfold sum2. rewrite <- sum_n_scale. apply sum_n_ext. intros i _.
  apply sum_n_scale.
Qed.

Lemma sum2_nonneg (n m : nat) (f : nat -> nat -> R) :
  (forall i j, (i < n)%nat -> (j < m)%nat -> 0 <= f i j) -> 0 <= sum2 n m f.
Proof.
  intros H. unfold sum2. apply sum_n_nonneg. intros i Hi.
  apply sum_n_nonneg. intros j Hj. apply H; assumption.
Qed.

Lemma sum2_zero (n m : nat) (f : nat -> nat -> R) :
  (forall i j, (i < n)%nat -> (j < m)%nat -> f i j = 0) -> sum2 n m f = 0.
Proof.
  intros H. unfold sum2. apply sum_n_zero. intros i Hi.
  apply sum_n_zero. intros j Hj. apply H; assumption.
Qed.

(** The sum of the products [m i * m j] over all pairs is a square. *)
Lemma sum2_outer_square (n : nat) (m : nat -> R) :
  sum2 n n (fun i j => m i * m j) = sum_n n m * sum_n n m.
Proof.
  unfold sum2.
  rewrite (sum_n_ext n _ (fun i => sum_n n m * m i)).
  - apply sum_n_scale.
  - intros i _. rewrite sum_n_scale. ring.
Qed.

Lemma div_some (a b : R) : b <> 0 -> div a b = Some (a / b).
Proof. intros Hb. unfold div. destruct (Req_dec_T b 0); [contradiction | reflexivity]. Qed.

Lemma osum_n_some (n : nat) (f : nat -> option R) (g : nat -> R) :
  (forall i, (i < n)%nat -> f i = Some (g i)) -> osum_n n f = Some (sum_n n g).
Proof.
  induction n as [|n IH]; intros H; simpl; [reflexivity|].
  rewrite IH by (intros; apply H; lia). rewrite H by lia. reflexivity.
Qed.

Lemma torch_mean_some (n : nat) (f : nat -> option R) (g : nat -> R) :
  (0 < n)%nat -> (forall i, (i < n)%nat -> f i = Some (g i)) ->
  torch_mean n f = Some (sum_n n g / INR n).
Proof.
  intros Hn H. unfold torch_mean. destruct n as [|n]; [lia|].
  rewrite (osum_n_some _ f g H). reflexivity.
Qed.

Lemma torch_mean_ext (n : nat) (f g : nat -> option R) :
  (forall i, (i < n)%nat -> f i = g i) -> torch_mean n f = torch_mean n g.
Proof.
  intros H. unfold torch_mean. destruct n as [|n]; [reflexivity|].
  f_equal. remember (S n) as k eqn:Ek. clear Ek.
  induction k as [|k IH]; simpl; [reflexivity|].
  rewrite IH by (intros; apply H; lia). rewrite H by lia. reflexivity.
Qed.

Lemma lt_div_r (x y z : R) : 0 < z -> x * z < y -> x < y / z.
Proof.
  intros Hz H. apply (Rmult_lt_reg_r z); [exact Hz|].
  unfold Rdiv. rewrite Rmult_assoc, Rinv_l by lra. lra.
Qed.

Lemma div_lt_l (x y z : R) : 0 < z -> x < y * z -> x / z < y.
Proof.
  intros Hz H. apply (Rmult_lt_reg_r z); [exact Hz|].
  unfold Rdiv. rewrite Rmult_assoc, Rinv_l by lra. lra.
Qed.

Lemma sigmoid_bounds (x : R) : 0 < sigmoid x < 1.
Proof.
  unfold sigmoid. pose proof (exp_pos (- x)) as He.
  split.
  - apply Rdiv_lt_0_compat; lra.
  - apply (Rmult_lt_reg_r (1 + exp (- x))); [lra|].
    unfold Rdiv. rewrite Rmult_assoc, Rinv_l by lra. lra.
Qed.

End RealFacts.

(** ** The smooth LDDT loss *)

Module SmoothLDDTFacts.
Import Losses RealFacts.
Local Open Scope R_scope.

(** The score [epsilon_lm] of a pair whose two distances agree: the mean of
    the four sigmoids at their thresholds. *)
Definition perfect_score : R :=
  (sigmoid 0.5 + sigmoid 1.0 + sigmoid 2.0 + sigmoid 4.0) / 4.0.

(** A tensor of zeros and ones. *)
Definition indicator (t : Tensor2) : Prop := forall b i, t b i = 0 \/ t b i = 1.

Definition boolean_mask (mask : option Tensor2) : Prop :=
  match mask with
  | None => True
  | Some mask => indicator mask
  end.

Lemma perfect_score_bounds : 0 < perfect_score < 1.
Proof.
  unfold perfect_score.
  pose proof (sigmoid_bounds 0.5). pose proof (sigmoid_bounds 1.0).
  pose proof (sigmoid_bounds 2.0). pose proof (sigmoid_bounds 4.0).
  split; lra.
Qed.

Section WithVectorLib.
Context {V : VectorLib}.

Lemma delta_lm_same (atoms : Vec3Array) (b l m : nat) :
  delta_lm atoms atoms b l m = 0.
Proof.
  unfold delta_lm. cbv zeta. rewrite Rminus_diag_eq by reflexivity. apply Rabs_R0.
Qed.

Lemma epsilon_lm_same (atoms : Vec3Array) (b l m : nat) :
  epsilon_lm atoms atoms b l m = perfect_score.
Proof.
  unfold epsilon_lm. cbv zeta. rewrite delta_lm_same, !Rminus_0_r. reflexivity.
Qed.

Lemma epsilon_lm_bounds (pred_atoms gt_atoms : Vec3Array) (b l m : nat) :
  0 < epsilon_lm pred_atoms gt_atoms b l m < 1.
Proof.
  unfold epsilon_lm. cbv zeta.
  set (d := delta_lm pred_atoms gt_atoms b l m).
  pose proof (sigmoid_bounds (0.5 - d)). pose proof (sigmoid_bounds (1.0 - d)).
  pose proof (sigmoid_bounds (2.0 - d)). pose proof (sigmoid_bounds (4.0 - d)).
  split; lra.
Qed.

(** The self-term mask removes the diagonal. *)
Lemma c_lm_diag (gt_atoms : Vec3Array) (rna dna : Tensor2)
    (mask : option Tensor2) (b l : nat) :
  c_lm gt_atoms rna dna mask b l l = 0.
Proof.
  unfold c_lm, eye. cbv zeta. rewrite Nat.eqb_refl.
  replace (1.0 - 1) with 0 by lra. ring.
Qed.

Lemma lt_float_cases (a b : R) : lt_float a b = 0 \/ lt_float a b = 1.
Proof. unfold lt_float. destruct (Rlt_dec a b); auto. Qed.

Lemma c_lm_nonneg (gt_atoms : Vec3Array) (rna dna : Tensor2)
    (mask : option Tensor2) (b l m : nat) :
  indicator rna -> indicator dna -> boolean_mask mask ->
  0 <= c_lm gt_atoms rna dna mask b l m.
Proof.
  intros Hr Hd Hm. unfold c_lm. cbv zeta.
  set (d := euclidean_distance (gt_atoms b l) (gt_atoms b m)).
  assert (Hrad : 0 <= lt_float d 30.0 * (dna b l + rna b l)
                      + lt_float d 15.0 * (1.0 - (dna b l + rna b l))).
  { unfold lt_float.
    destruct (Rlt_dec d 30.0), (Rlt_dec d 15.0),
             (Hr b l) as [-> | ->], (Hd b l) as [-> | ->]; lra. }
  assert (Hself : 0 <= 1.0 - eye l m).
  { unfold eye. destruct (l =? m)%nat; lra. }
  destruct mask as [mk|].
  - assert (Hmm : 0 <= mk b l * mk b m).
    { simpl in Hm. destruct (Hm b l) as [-> | ->], (Hm b m) as [-> | ->]; lra. }
    apply Rmult_le_pos; [apply Rmult_le_pos|]; assumption.
  - apply Rmult_le_pos; assumption.
Qed.

Lemma smooth_lddt_denom_pos (n : nat) (gt_atoms : Vec3Array) (rna dna : Tensor2)
    (mask : option Tensor2) (epsilon : R) (b : nat) :
  0 < epsilon -> indicator rna -> indicator dna -> boolean_mask mask ->
  epsilon <= sum2 n n (c_lm gt_atoms rna dna mask b) + epsilon.
Proof.
  intros He Hr Hd Hm.
  assert (0 <= sum2 n n (c_lm gt_atoms rna dna mask b)).
  { apply sum2_nonneg. intros. apply c_lm_nonneg; assumption. }
  lra.
Qed.

(** The value of the loss whenever the flags and the mask are indicators. *)
Lemma smooth_lddt_loss_value (bs n : nat) (pred_atoms gt_atoms : Vec3Array)
    (rna dna : Tensor2) (mask : option Tensor2) (epsilon : R) :
  (0 < bs)%nat -> 0 < epsilon ->
  indicator rna -> indicator dna -> boolean_mask mask ->
  smooth_lddt_loss bs n pred_atoms gt_atoms rna dna mask epsilon
  = Some (sum_n bs (fun b =>
            1 - sum2 n n (fun l m => epsilon_lm pred_atoms gt_atoms b l m
                                     * c_lm gt_atoms rna dna mask b l m)
                / (sum2 n n (c_lm gt_atoms rna dna mask b) + epsilon))
          / INR bs).
Proof.
  intros Hbs He Hr Hd Hm. unfold smooth_lddt_loss. cbv zeta.
  apply torch_mean_some; [exact Hbs|].
  intros b _. rewrite div_some.
  - simpl. f_equal. lra.
  - pose proof (smooth_lddt_denom_pos n gt_atoms rna dna mask epsilon b He Hr Hd Hm).
    lra.
Qed.

(** With equal predicted and true coordinates every included pair scores
    [perfect_score]. *)
Lemma smooth_lddt_loss_same_atoms (bs n : nat) (atoms : Vec3Array)
    (rna dna : Tensor2) (mask : option Tensor2) (epsilon : R) :
  (0 < bs)%nat -> 0 < epsilon ->
  indicator rna -> indicator dna -> boolean_mask mask ->
  smooth_lddt_loss bs n atoms atoms rna dna mask epsilon
  = Some (sum_n bs (fun b =>
            1 - perfect_score * sum2 n n (c_lm atoms rna dna mask b)
                / (sum2 n n (c_lm atoms rna dna mask b) + epsilon))
          / INR bs).
Proof.
  intros Hbs He Hr Hd Hm.
  rewrite smooth_lddt_loss_value by assumption.
  f_equal. f_equal. apply sum_n_ext. intros b _.
  rewrite <- sum2_scale. f_equal. f_equal. apply sum2_ext.
  intros l m _ _. rewrite epsilon_lm_same. reflexivity.
Qed.

(** Such a loss stays above [1 - perfect_score], which is positive. *)
Lemma same_atoms_loss_above (bs n : nat) (atoms : Vec3Array)
    (rna dna : Tensor2) (mask : option Tensor2) (epsilon : R) :
  (0 < bs)%nat -> 0 < epsilon ->
  indicator rna -> indicator dna -> boolean_mask mask ->
  1 - perfect_score
  < sum_n bs (fun b =>
      1 - perfect_score * sum2 n n (c_lm atoms rna dna mask b)
          / (sum2 n n (c_lm atoms rna dna mask b) + epsilon))
    / INR bs.
Proof.
  intros Hbs He Hr Hd Hm.
  pose proof perfect_score_bounds as [Hp0 Hp1].
  assert (Hn : 0 < INR bs) by (apply lt_0_INR; exact Hbs).
  apply lt_div_r; [exact Hn|].
  rewrite Rmult_comm. apply sum_n_above; [|exact Hbs].
  intros b _.
  set (S := sum2 n n (c_lm atoms rna dna mask b)).
  assert (HS : 0 <= S).
  { apply sum2_nonneg. intros. apply c_lm_nonneg; assumption. }
  assert (Hq : perfect_score * S / (S + epsilon) < perfect_score).
  { apply div_lt_l; [lra | nra]. }
  lra.
Qed.

(** C2, as the code has it. With equal predicted and true coordinates and an
    all-ones mask, every pair left by the inclusion radius scores
    [perfect_score] (the mean of the sigmoids at 0.5, 1, 2 and 4), which is
    below 1: the loss is the batch mean of
    [1 - perfect_score * S / (S + epsilon)], with [S] the sum of [c_lm] over the
    off-diagonal pairs, and it is above [1 - perfect_score > 0], never 0.
    Diagonal pairs have [c_lm = 0]: they add nothing to the numerator or to the
    denominator, whatever the coordinates and the mask. *)
Theorem smooth_lddt_perfect_prediction (bs n : nat) (atoms : Vec3Array)
    (rna dna : Tensor2) (epsilon : R) :
  (0 < bs)%nat -> 0 < epsilon -> indicator rna -> indicator dna ->
  let mask := Some (fun _ _ : nat => 1) in
  let S := fun b => sum2 n n (c_lm atoms rna dna mask b) in
  (forall (pred_atoms gt_atoms : Vec3Array) (mk : option Tensor2) (b l : nat),
     c_lm gt_atoms rna dna mk b l l = 0 /\
     epsilon_lm pred_atoms gt_atoms b l l * c_lm gt_atoms rna dna mk b l l = 0) /\
  exists v,
    smooth_lddt_loss bs n atoms atoms rna dna mask epsilon = Some v /\
    v = sum_n bs (fun b => 1 - perfect_score * S b / (S b + epsilon)) / INR bs /\
    0 < 1 - perfect_score /\
    1 - perfect_score < v.
Proof.
  intros Hbs He Hr Hd mask S.
  assert (Hm : boolean_mask mask) by (intros b i; right; reflexivity).
  split.
  - intros pred_atoms gt_atoms mk b l. rewrite c_lm_diag. split; [reflexivity | ring].
  - eexists. split; [apply smooth_lddt_loss_same_atoms; assumption|].
    split; [reflexivity|].
    split; [pose proof perfect_score_bounds; lra|].
    apply same_atoms_loss_above; assumption.
Qed.

End WithVectorLib.

(** The scenario of the spec: one batch element, two non-nucleotide atoms at
    [(0, 0, 0)] and [(0, 0, 1)], all-ones mask, the default [epsilon]. *)
Definition two_atoms : Vec3Array :=
  fun _ i => match i with O => mkVec3 0 0 0 | S _ => mkVec3 0 0 1 end.

Definition no_flags : Tensor2 := fun _ _ => 0.
Definition all_ones : Tensor2 := fun _ _ => 1.

Lemma no_flags_indicator : indicator no_flags.
Proof. intros b i. left. reflexivity. Qed.

Lemma smooth_lddt_perfect_prediction_witness :
  exists v,
    smooth_lddt_loss (V := euclid) 1 2 two_atoms two_atoms no_flags no_flags
      (Some all_ones) 1e-5 = Some v /\
    1 - perfect_score < v.
Proof.
  destruct (smooth_lddt_perfect_prediction (V := euclid) 1 2 two_atoms
              no_flags no_flags 1e-5 (Nat.lt_0_succ 0) ltac:(lra)
              no_flags_indicator no_flags_indicator)
    as [_ [v [Hv [_ [_ Hlt]]]]].
  exists v. split; [exact Hv | exact Hlt].
Defined.

Lemma two_atoms_one_apart (b : nat) :
  euclidean_distance (VectorLib := euclid) (two_atoms b 0%nat) (two_atoms b 1%nat) = 1 /\
  euclidean_distance (VectorLib := euclid) (two_atoms b 1%nat) (two_atoms b 0%nat) = 1.
Proof.
  unfold euclidean_distance, euclid, sqnorm, vsub, two_atoms. cbn [vx vy vz].
  split.
  - replace ((0 - 0) * (0 - 0) + (0 - 0) * (0 - 0) + (0 - 1) * (0 - 1)) with 1 by lra.
    apply sqrt_1.
  - replace ((0 - 0) * (0 - 0) + (0 - 0) * (0 - 0) + (1 - 0) * (1 - 0)) with 1 by lra.
    apply sqrt_1.
Qed.

Lemma two_atoms_included (b : nat) :
  sum2 2 2 (c_lm (V := euclid) two_atoms no_flags no_flags (Some all_ones) b) = 2.
Proof.
  unfold sum2. cbn [sum_n]. rewrite !c_lm_diag.
  unfold c_lm. cbv zeta.
  destruct (two_atoms_one_apart b) as [-> ->].
  unfold lt_float, no_flags, all_ones, eye. cbn [Nat.eqb].
  destruct (Rlt_dec 1 30.0); [|lra]. destruct (Rlt_dec 1 15.0); [|lra]. lra.
Qed.

(** C2 as stated fails: in the scenario of the spec the loss is
    [1 - perfect_score * 2 / (2 + 1e-5)], which is not 0. *)
Lemma smooth_lddt_two_atoms_not_zero :
  smooth_lddt_loss (V := euclid) 1 2 two_atoms two_atoms no_flags no_flags
    (Some all_ones) 1e-5
  = Some (1 - perfect_score * 2 / (2 + 1e-5)) /\
  smooth_lddt_loss (V := euclid) 1 2 two_atoms two_atoms no_flags no_flags
    (Some all_ones) 1e-5
  <> Some 0.
Proof.
  assert (Hm : boolean_mask (Some all_ones)) by (intros b i; right; reflexivity).
  assert (Hval :
    smooth_lddt_loss (V := euclid) 1 2 two_atoms two_atoms no_flags no_flags
      (Some all_ones) 1e-5
    = Some (1 - perfect_score * 2 / (2 + 1e-5))).
  { rewrite smooth_lddt_loss_same_atoms;
      [| lia | lra | exact no_flags_indicator | exact no_flags_indicator | exact Hm].
    f_equal. cbn [sum_n INR]. rewrite two_atoms_included. lra. }
  split; [exact Hval|].
  rewrite Hval. intros Heq. injection Heq as Heq.
  pose proof perfect_score_bounds as [Hp0 Hp1].
  assert (Hq : perfect_score * 2 / (2 + 1e-5) < perfect_score).
  { apply div_lt_l; lra. }
  lra.
Qed.

End SmoothLDDTFacts.

(** ** No division by zero in the mask normalisations *)

Module DivisionFacts.
Import Losses RealFacts SmoothLDDTFacts.
Local Open Scope R_scope.




Lemma sum_n_const (n : nat) (c : R) : sum_n n (fun _ => c) = INR n * c.
Proof.
  induction n as [|n IH]; [simpl; ring|].
  rewrite S_INR. cbn [sum_n]. rewrite IH. ring.
Qed.

(** The denominator of [mean_squared_error]. *)
Lemma mse_denom_pos (n : nat) (mask : option Tensor2) (epsilon : R) (b : nat) :
  0 < epsilon -> boolean_mask mask ->
  epsilon <= epsilon + sum_n n (mask_or_ones mask b).
Proof.
  intros He Hm.
  assert (0 <= sum_n n (mask_or_ones mask b)).
  { apply sum_n_nonneg. intros i _. destruct mask as [mk|]; simpl.
    - destruct (Hm b i) as [-> | ->]; lra.
    - lra. }
  lra.
Qed.

Lemma mean_squared_error_value {V : VectorLib} (n : nat)
    (pred_atoms gt_atoms : Vec3Array) (weights : Tensor2)
    (mask : option Tensor2) (epsilon : R) (b : nat) :
  0 < epsilon -> boolean_mask mask ->
  mean_squared_error n pred_atoms gt_atoms weights mask epsilon b
  = Some (sum_n n (fun i =>
            square_euclidean_distance (pred_atoms b i) (gt_atoms b i) epsilon
            * mask_or_ones mask b i * weights b i)
          / (epsilon + sum_n n (mask_or_ones mask b)) / 3).
Proof.
  intros He Hm. unfold mean_squared_error.
  pose proof (mse_denom_pos n mask epsilon b He Hm) as Hden.
  destruct mask as [mk|]; cbn [mask_or_ones] in *.
  - rewrite div_some by lra. simpl. f_equal. lra.
  - unfold ones_like. rewrite div_some by lra. simpl. f_equal. lra.
Qed.

(** The denominator of [distogram_loss] is [eps] plus a square. *)
Lemma distogram_denom_pos (n : nat) (mask : nat -> R) (eps : R) :
  0 < eps -> eps <= eps + sum2 n n (fun i j => mask i * mask j).
Proof.
  intros He. rewrite sum2_outer_square.
  pose proof (Rle_0_sqr (sum_n n mask)) as Hsq. unfold Rsqr in Hsq. lra.
Qed.





(** On an all-zero mask the three losses are 1, 0 and 0. *)
Lemma zero_mask_losses {V : VectorLib} (ca_pos bs n : nat)
    (pred_atoms gt_atoms : Vec3Array) (rna dna weights : Tensor2)
    (logits : nat -> nat -> nat -> nat -> R) (positions : Vec3Array)
    (min_bin max_bin : R) (no_bins : nat) (epsilon : R) (b : nat) :
  (0 < bs)%nat -> (1 <= no_bins)%nat -> 0 < epsilon ->
  indicator rna -> indicator dna ->
  smooth_lddt_loss bs n pred_atoms gt_atoms rna dna (Some no_flags) epsilon
    = Some 1 /\
  mean_squared_error n pred_atoms gt_atoms weights (Some no_flags) epsilon b
    = Some 0 /\
  distogram_loss ca_pos bs n logits positions no_flags min_bin max_bin no_bins
    epsilon = Some 0.
Proof.
  intros Hbs Hnb He Hr Hd.
  assert (Hz : boolean_mask (Some no_flags)) by exact no_flags_indicator.
  assert (Hbs' : INR bs <> 0) by (apply not_0_INR; lia).
  split; [|split].
  - rewrite smooth_lddt_loss_value by assumption. f_equal.
    rewrite (sum_n_ext bs _ (fun _ => 1)).
    + rewrite sum_n_const. field. exact Hbs'.
    + intros b' _.
      rewrite (sum2_zero n n (fun l m => epsilon_lm pred_atoms gt_atoms b' l m * _)).
      * unfold Rdiv. ring.
      * intros l m _ _. unfold c_lm, no_flags. cbv zeta. ring.
  - rewrite mean_squared_error_value by assumption. f_equal.
    rewrite sum_n_zero.
    + unfold Rdiv. ring.
    + intros i _. unfold mask_or_ones, no_flags. ring.
  - unfold distogram_loss. destruct no_bins as [|k]; [lia|]. cbv zeta.
    rewrite (torch_mean_some bs _ (fun _ => 0)); [|exact Hbs|].
    + f_equal. rewrite sum_n_const. unfold Rdiv. ring.
    + intros b' _.
      rewrite (osum_n_some n _ (fun _ => 0)).
      * f_equal. rewrite sum_n_const. ring.
      * intros i _. rewrite div_some.
        -- f_equal. rewrite sum_n_zero; [unfold Rdiv; ring|].
           intros j _. unfold no_flags. ring.
        -- pose proof (distogram_denom_pos n (no_flags b') epsilon He). lra.
Qed.

End DivisionFacts.

(** ** The smooth LDDT term of [AlphaFold3Loss] *)

Module AlphaFold3LossFacts.
Import Losses RealFacts SmoothLDDTFacts.
Local Open Scope R_scope.

Section WithGeometry.
Context {V : VectorLib} {A : AlignmentLib}.






End WithGeometry.
End AlphaFold3LossFacts.

(** ** The loss aggregator on IEEE-754 values *)

Module AggregatorFacts.
Import Losses.

Section WithFormat.
Variables prec emax : Z.

Local Abbreviation LS := (ieee prec emax).
Local Abbreviation add := (SFadd prec emax).
Local Abbreviation mul := (SFmul prec emax).

Definition is_zero (x : spec_float) : bool :=
  match x with S754_zero _ => true | _ => false end.

(** Neither NaN nor an infinity. *)
Definition is_finite (x : spec_float) : bool :=
  match x with S754_zero _ | S754_finite _ _ _ => true | _ => false end.

(** Equal as floating-point values: the same datum, or two zeros (the sign of
    a zero is not observed by [==]). *)
Definition same_value (x y : spec_float) : Prop :=
  x = y \/ (is_zero x = true /\ is_zero y = true).

(** The configured weight of a term, [0.] when there is none. *)
Definition weight_or_zero (weight_of : string -> option spec_float)
    (loss_name : string) : spec_float :=
  match weight_of loss_name with
  | Some w => w
  | None => S754_zero false
  end.

(** The sum of [weight * term] over the terms, in the order of the dict,
    starting from [start]. *)
Definition weighted_sum (weight_of : string -> option spec_float)
    (items : list (string * spec_float)) (start : spec_float) : spec_float :=
  fold_left
    (fun acc item => add acc (mul (weight_or_zero weight_of (fst item)) (snd item)))
    items start.

Definition weights_configured (weight_of : string -> option spec_float)
    (items : list (string * spec_float)) : Prop :=
  Forall (fun item => exists w, weight_of (fst item) = Some w /\ is_finite w = true)
         items.

Definition terms_finite (items : list (string * spec_float)) : Prop :=
  Forall (fun item => is_finite (snd item) = true) items.

Lemma same_value_refl (x : spec_float) : same_value x x.
Proof. left. reflexivity. Qed.

Lemma same_value_trans (x y z : spec_float) :
  same_value x y -> same_value y z -> same_value x z.
Proof.
  intros [-> | [Hx Hy]] [-> | [Hy' Hz]]; unfold same_value; auto.
Qed.

(** Adding a term does not tell two zeros apart. *)
Lemma same_value_add (a a' t : spec_float) :
  same_value a a' -> same_value (add a t) (add a' t).
Proof.
  intros [-> | [Ha Ha']]; [apply same_value_refl|].
  destruct a as [s| | |]; try discriminate Ha.
  destruct a' as [s'| | |]; try discriminate Ha'.
  destruct t as [st|st| |st mt et]; simpl.
  - destruct s, s', st; simpl; unfold same_value; simpl; auto.
  - apply same_value_refl.
  - apply same_value_refl.
  - apply same_value_refl.
Qed.

(** A finite weight times the substituted zero adds nothing. *)
Lemma add_weighted_zero (acc w : spec_float) :
  is_finite w = true -> same_value (add acc (mul w (S754_zero false))) acc.
Proof.
  intros Hw.
  assert (Hz : exists s, mul w (S754_zero false) = S754_zero s).
  { destruct w as [s| | |s m e]; try discriminate Hw; simpl; eexists; reflexivity. }
  destruct Hz as [s ->].
  destruct acc as [sa|sa| |sa ma ea]; simpl.
  - destruct sa, s; unfold same_value; simpl; auto.
  - apply same_value_refl.
  - apply same_value_refl.
  - apply same_value_refl.
Qed.

Lemma weighted_sum_same_value weight_of items : forall a a',
  same_value a a' ->
  same_value (weighted_sum weight_of items a) (weighted_sum weight_of items a').
Proof.
  induction items as [|item rest IH]; intros a a' H; simpl; [exact H|].
  apply IH. apply same_value_add. exact H.
Qed.

Lemma weighted_sum_app weight_of l1 l2 start :
  weighted_sum weight_of (l1 ++ l2) start
  = weighted_sum weight_of l2 (weighted_sum weight_of l1 start).
Proof. unfold weighted_sum. apply fold_left_app. Qed.

(** *** The loop *)

Lemma finite_not_degenerate (x : spec_float) :
  is_finite x = true -> is_nan x = false /\ is_inf x = false.
Proof. destruct x; simpl; intros H; try discriminate H; auto. Qed.

(** A finite term with a configured weight is added as it is, silently. *)
Lemma aggregate_step_finite weight_of (st : agg_state) (item : string * spec_float) :
  (exists w, weight_of (fst item) = Some w /\ is_finite w = true) ->
  is_finite (snd item) = true ->
  aggregate_step (LS := LS) weight_of st item
  = Ok {| cumulative_loss :=
            add (cumulative_loss st)
                (mul (weight_or_zero weight_of (fst item)) (snd item));
          losses_now := dict_set (losses_now st) (fst item) (snd item);
          warnings := warnings st |}.
Proof.
  intros [w [Hw _]] Hfin. destruct item as [name loss]. simpl in *.
  destruct (finite_not_degenerate loss Hfin) as [Hn Hi].
  unfold aggregate_step, weight_or_zero. rewrite Hw. cbn [ls_isnan ls_isinf ieee].
  rewrite Hn, Hi. cbn [ls_add ls_mul ieee]. rewrite app_nil_r. reflexivity.
Qed.

Lemma aggregate_loop_finite weight_of items : forall st,
  weights_configured weight_of items -> terms_finite items ->
  exists d,
    aggregate_loop (LS := LS) weight_of items st
    = (Ok {| cumulative_loss := weighted_sum weight_of items (cumulative_loss st);
             losses_now := d;
             warnings := warnings st |},
       warnings st).
Proof.
  induction items as [|item rest IH]; intros st Hw Hf.
  - exists (losses_now st). destruct st; reflexivity.
  - inversion Hw as [|? ? Hw1 Hw']; subst. inversion Hf as [|? ? Hf1 Hf']; subst.
    cbn [aggregate_loop]. rewrite aggregate_step_finite by assumption.
    destruct (IH {| cumulative_loss :=
                      add (cumulative_loss st)
                          (mul (weight_or_zero weight_of (fst item)) (snd item));
                    losses_now := dict_set (losses_now st) (fst item) (snd item);
                    warnings := warnings st |} Hw' Hf') as [d Hd].
    exists d. rewrite Hd. reflexivity.
Qed.

Lemma aggregate_loop_app weight_of l1 l2 : forall st st' logged,
  aggregate_loop (LS := LS) weight_of l1 st = (Ok st', logged) ->
  aggregate_loop (LS := LS) weight_of (l1 ++ l2) st
  = aggregate_loop (LS := LS) weight_of l2 st'.
Proof.
  induction l1 as [|item rest IH]; intros st st' logged H.
  - simpl in H. injection H as <- _. reflexivity.
  - cbn [aggregate_loop app] in *.
    destruct (aggregate_step weight_of st item) as [st1|e]; [|discriminate H].
    apply (IH st1 st' logged H).
Qed.

(** The warning logged for a term. *)
Definition warning_for (loss_name : string) (loss : spec_float) : string :=
  if is_nan loss then (loss_name ++ " loss is NaN. Skipping...")%string
  else (loss_name ++ " loss is inf. Skipping...")%string.

(** A NaN or infinite term is replaced by [0.] and a warning is logged. *)
Lemma aggregate_step_degenerate weight_of (st : agg_state)
    (loss_name : string) (loss w : spec_float) :
  weight_of loss_name = Some w ->
  is_nan loss = true \/ is_inf loss = true ->
  aggregate_step (LS := LS) weight_of st (loss_name, loss)
  = Ok {| cumulative_loss := add (cumulative_loss st) (mul w (S754_zero false));
          losses_now := dict_set (losses_now st) loss_name (S754_zero false);
          warnings := warnings st ++ [warning_for loss_name loss] |}.
Proof.
  intros Hw Hbad. unfold aggregate_step, warning_for. rewrite Hw.
  cbn [ls_isnan ls_isinf ls_zero ls_add ls_mul ieee].
  destruct (is_nan loss) eqn:Hn; [reflexivity|].
  destruct Hbad as [Hbad | Hbad]; [discriminate Hbad|].
  rewrite Hbad. reflexivity.
Qed.

(** C1. When exactly one term of the dict is NaN or infinite, the other terms
    are finite and every term has a finite configured weight,
    [_aggregate_losses] does not raise, logs exactly one warning, which names
    the degenerate term, and returns as cumulative loss the sum of
    [weight * term] over the other terms: the degenerate term adds exactly
    zero. *)
Theorem aggregate_skips_degenerate_term
    (weight_of : string -> option spec_float)
    (pre post : list (string * spec_float))
    (loss_name : string) (bad : spec_float) :
  is_nan bad = true \/ is_inf bad = true ->
  terms_finite (pre ++ post) ->
  weights_configured weight_of (pre ++ (loss_name, bad) :: post) ->
  exists total breakdown,
    _aggregate_losses (LS := ieee prec emax) weight_of
      (pre ++ (loss_name, bad) :: post)
    = (Ok (total, breakdown), [warning_for loss_name bad]) /\
    same_value total (weighted_sum weight_of (pre ++ post) (S754_zero false)).
Proof.
  intros Hbad Hfin Hcfg.
  apply Forall_app in Hfin. destruct Hfin as [Hfpre Hfpost].
  apply Forall_app in Hcfg. destruct Hcfg as [Hwpre Hwrest].
  inversion Hwrest as [|? ? [w [Hw Hwfin]] Hwpost]; subst. simpl in Hw.
  set (items := pre ++ (loss_name, bad) :: post).
  set (st0 := {| cumulative_loss := S754_zero false; losses_now := items;
                 warnings := [] |}).
  destruct (aggregate_loop_finite weight_of pre st0 Hwpre Hfpre) as [d1 H1].
  set (st2 := {| cumulative_loss :=
                   SFadd prec emax (weighted_sum weight_of pre (S754_zero false))
                     (SFmul prec emax w (S754_zero false));
                 losses_now := dict_set d1 loss_name (S754_zero false);
                 warnings := [warning_for loss_name bad] |}).
  destruct (aggregate_loop_finite weight_of post st2 Hwpost Hfpost) as [d2 H2].
  assert (Hloop :
    aggregate_loop (LS := ieee prec emax) weight_of items st0
    = (Ok {| cumulative_loss :=
               weighted_sum weight_of post (cumulative_loss st2);
             losses_now := d2;
             warnings := warnings st2 |}, warnings st2)).
  { unfold items. rewrite (aggregate_loop_app _ _ _ _ _ _ H1).
    cbn [aggregate_loop].
    rewrite (aggregate_step_degenerate weight_of _ loss_name bad w Hw Hbad).
    exact H2. }
  unfold _aggregate_losses. cbn [ls_zero ieee]. fold items. fold st0.
  rewrite Hloop.
  assert (Hne : exists x rest, items = x :: rest).
  { unfold items. destruct pre; simpl; eexists _, _; reflexivity. }
  destruct Hne as [x [rest ->]].
  eexists _, _. split; [reflexivity|].
  cbn [cumulative_loss st2]. rewrite weighted_sum_app.
  apply weighted_sum_same_value. apply add_weighted_zero. exact Hwfin.
Qed.

End WithFormat.

(** The theorem on binary32 values: the terms 1.0, NaN and 2.0 with the
    weight 1.0 each. *)
Definition one32 : spec_float := S754_finite false 8388608 (-23).
Definition two32 : spec_float := S754_finite false 8388608 (-22).
Definition three32 : spec_float := S754_finite false 12582912 (-22).

Lemma aggregate_skips_degenerate_term_witness :
  exists total breakdown,
    _aggregate_losses (LS := ieee 24 128) (fun _ => Some one32)
      [("distogram"%string, one32); ("smooth_lddt_loss"%string, S754_nan);
       ("mse_loss"%string, two32)]
    = (Ok (total, breakdown), ["smooth_lddt_loss loss is NaN. Skipping..."%string]) /\
    same_value total three32.
Proof.
  assert (Hbad : is_nan S754_nan = true \/ is_inf S754_nan = true)
    by (left; reflexivity).
  assert (Hfin : terms_finite ([("distogram"%string, one32)]
                               ++ [("mse_loss"%string, two32)]))
    by (repeat constructor).
  assert (Hcfg : weights_configured (fun _ => Some one32)
            ([("distogram"%string, one32)]
             ++ ("smooth_lddt_loss"%string, S754_nan)
             :: [("mse_loss"%string, two32)])).
  { repeat constructor; exists one32; split; reflexivity. }
  exact (aggregate_skips_degenerate_term 24 128 (fun _ => Some one32)
           [("distogram"%string, one32)] [("mse_loss"%string, two32)]
           "smooth_lddt_loss" S754_nan Hbad Hfin Hcfg).
Defined.

End AggregatorFacts.

(** ** Rigid transforms and the aligned MSE loss *)

Module RigidFacts.
Import Losses RealFacts.
Local Open Scope R_scope.

Ltac mat_eq :=
  repeat match goal with M : Mat3 |- _ => destruct M end;
  unfold mat_mul, transpose, I3; cbn [m11 m12 m13 m21 m22 m23 m31 m32 m33];
  f_equal; ring.

Ltac vec_eq :=
  repeat match goal with M : Mat3 |- _ => destruct M end;
  repeat match goal with p : Vec3 |- _ => destruct p end;
  unfold rigid, vplus, mat_vec, mat_mul, transpose, vsub, I3;
  cbn [m11 m12 m13 m21 m22 m23 m31 m32 m33 vx vy vz];
  f_equal; ring.

Lemma mat_mul_assoc (a b c : Mat3) :
  mat_mul (mat_mul a b) c = mat_mul a (mat_mul b c).
Proof. mat_eq. Qed.

Lemma mat_mul_I3_l (a : Mat3) : mat_mul I3 a = a.
Proof. mat_eq. Qed.

Lemma mat_mul_I3_r (a : Mat3) : mat_mul a I3 = a.
Proof. mat_eq. Qed.

Lemma transpose_mul (a b : Mat3) :
  transpose (mat_mul a b) = mat_mul (transpose b) (transpose a).
Proof. mat_eq. Qed.

Lemma transpose_involutive (a : Mat3) : transpose (transpose a) = a.
Proof. destruct a. reflexivity. Qed.

Lemma det_mul (a b : Mat3) : det (mat_mul a b) = det a * det b.
Proof.
  destruct a, b. unfold det, mat_mul.
  cbn [m11 m12 m13 m21 m22 m23 m31 m32 m33]. ring.
Qed.

Lemma det_transpose (a : Mat3) : det (transpose a) = det a.
Proof.
  destruct a. unfold det, transpose.
  cbn [m11 m12 m13 m21 m22 m23 m31 m32 m33]. ring.
Qed.

(** The adjugate: [a * adjugate a = det a * I3]. *)
Definition adjugate (a : Mat3) : Mat3 :=
  mkMat3
    (m22 a * m33 a - m23 a * m32 a)
    (m13 a * m32 a - m12 a * m33 a)
    (m12 a * m23 a - m13 a * m22 a)
    (m23 a * m31 a - m21 a * m33 a)
    (m11 a * m33 a - m13 a * m31 a)
    (m13 a * m21 a - m11 a * m23 a)
    (m21 a * m32 a - m22 a * m31 a)
    (m12 a * m31 a - m11 a * m32 a)
    (m11 a * m22 a - m12 a * m21 a).

Lemma mul_adjugate (a : Mat3) :
  det a = 1 -> mat_mul a (adjugate a) = I3.
Proof.
  destruct a as [a b c d e f g h i]. unfold det, mat_mul, adjugate, I3.
  cbn [m11 m12 m13 m21 m22 m23 m31 m32 m33]. intros Hdet.
  f_equal; try ring; rewrite <- Hdet; ring.
Qed.

(** A rotation is inverted by its transpose, on both sides. *)
Lemma rotation_transpose_adjugate (M : Mat3) :
  is_rotation M -> transpose M = adjugate M.
Proof.
  intros [Horth Hdet].
  rewrite <- (mat_mul_I3_r (transpose M)).
  rewrite <- (mul_adjugate M Hdet), <- mat_mul_assoc, Horth.
  apply mat_mul_I3_l.
Qed.

Lemma rotation_inverse_r (M : Mat3) :
  is_rotation M -> mat_mul M (transpose M) = I3.
Proof.
  intros HM. rewrite (rotation_transpose_adjugate M HM).
  apply mul_adjugate. apply HM.
Qed.

Lemma rotation_transpose (M : Mat3) : is_rotation M -> is_rotation (transpose M).
Proof.
  intros HM. split.
  - rewrite transpose_involutive. apply rotation_inverse_r. exact HM.
  - rewrite det_transpose. apply HM.
Qed.

Lemma rotation_mul (M N : Mat3) :
  is_rotation M -> is_rotation N -> is_rotation (mat_mul M N).
Proof.
  intros [HM HdM] [HN HdN]. split.
  - rewrite transpose_mul, mat_mul_assoc, <- (mat_mul_assoc (transpose M)).
    rewrite HM, mat_mul_I3_l. exact HN.
  - rewrite det_mul, HdM, HdN. ring.
Qed.

Lemma rotation_I3 : is_rotation I3.
Proof.
  split.
  - unfold mat_mul, transpose, I3. cbn [m11 m12 m13 m21 m22 m23 m31 m32 m33].
    f_equal; ring.
  - unfold det, I3. cbn [m11 m12 m13 m21 m22 m23 m31 m32 m33]. ring.
Qed.

(** Rigid transforms compose and have inverses. *)
Lemma rigid_compose (M N : Mat3) (t u p : Vec3) :
  rigid M t (rigid N u p) = rigid (mat_mul M N) (vplus (mat_vec M u) t) p.
Proof. vec_eq. Qed.

Lemma mat_vec_mul (M N : Mat3) (p : Vec3) :
  mat_vec (mat_mul M N) p = mat_vec M (mat_vec N p).
Proof. vec_eq. Qed.

Lemma mat_vec_I3 (p : Vec3) : mat_vec I3 p = p.
Proof. vec_eq. Qed.

Definition vopp (p : Vec3) : Vec3 := mkVec3 (- vx p) (- vy p) (- vz p).

Lemma rigid_inverse (M : Mat3) (t p : Vec3) :
  is_rotation M ->
  rigid (transpose M) (vopp (mat_vec (transpose M) t)) (rigid M t p) = p.
Proof.
  intros [HM _]. rewrite rigid_compose, HM.
  unfold rigid. rewrite mat_vec_I3.
  destruct p, (mat_vec (transpose M) t). unfold vplus, vopp.
  cbn [vx vy vz]. f_equal; ring.
Qed.

Lemma rigid_I3 (p : Vec3) : rigid I3 (mkVec3 0 0 0) p = p.
Proof. vec_eq. Qed.

Lemma sqnorm_vsub_sym (p q : Vec3) : sqnorm (vsub p q) = sqnorm (vsub q p).
Proof. unfold sqnorm, vsub. cbn [vx vy vz]. ring. Qed.

Lemma sqnorm_nonneg (p : Vec3) : 0 <= sqnorm p.
Proof. unfold sqnorm. nra. Qed.

(** *** The aligned MSE is the minimal alignment cost *)

Lemma alignment_cost_ext (n : nat) (w m : nat -> R) (x y ref : nat -> Vec3) :
  (forall i, (i < n)%nat -> x i = y i) ->
  alignment_cost n w m x ref = alignment_cost n w m y ref.
Proof.
  intros H. unfold alignment_cost. apply sum_n_ext.
  intros i Hi. rewrite H by exact Hi. reflexivity.
Qed.

Lemma alignment_cost_nonneg (n : nat) (w m : nat -> R) (x ref : nat -> Vec3) :
  (forall i, 0 <= w i * m i) -> 0 <= alignment_cost n w m x ref.
Proof.
  intros H. unfold alignment_cost. apply sum_n_nonneg. intros i _.
  apply Rmult_le_pos; [apply H | apply sqnorm_nonneg].
Qed.

(** With the exact squared distance, [mean_squared_error] of the aligned
    points is their alignment cost over the mask count, divided by 3. *)
Lemma mean_squared_error_cost (n : nat) (pred_atoms aligned : Vec3Array)
    (weights : Tensor2) (mask : option Tensor2) (epsilon : R) (b : nat) :
  mean_squared_error (V := euclid) n pred_atoms aligned weights mask epsilon b
  = option_map (fun mse => mse / 3.0)
      (div (alignment_cost n (weights b) (mask_or_ones mask b)
              (aligned b) (pred_atoms b))
           (epsilon + sum_n n (mask_or_ones mask b))).
Proof.
  unfold mean_squared_error, alignment_cost.
  destruct mask as [mk|]; cbn [mask_or_ones square_euclidean_distance euclid];
    unfold ones_like; f_equal; f_equal; apply sum_n_ext; intros i _;
    rewrite (sqnorm_vsub_sym (pred_atoms b i)); ring.
Qed.

Section WithAlignment.
Context {A : AlignmentLib}.

(** Two optimal alignments, of the points and of their rigid image, reach
    the same cost. *)
Lemma optimal_cost_invariant (bs n : nat) (pred_atoms gt_atoms : Vec3Array)
    (weights : Tensor2) (mask : option Tensor2) (M : Mat3) (t : Vec3) (b : nat) :
  is_rotation M -> (b < bs)%nat ->
  least_squares_optimal bs n gt_atoms pred_atoms weights mask ->
  least_squares_optimal bs n (fun b i => rigid M t (gt_atoms b i)) pred_atoms
    weights mask ->
  alignment_cost n (weights b) (mask_or_ones mask b)
    (weighted_rigid_align bs n (fun b i => rigid M t (gt_atoms b i))
       pred_atoms weights mask b) (pred_atoms b)
  = alignment_cost n (weights b) (mask_or_ones mask b)
      (weighted_rigid_align bs n gt_atoms pred_atoms weights mask b)
      (pred_atoms b).
Proof.
  intros HM Hb H1 H2.
  destruct (H1 b Hb) as [M1 [t1 [HR1 [Hal1 Hopt1]]]].
  destruct (H2 b Hb) as [M2 [t2 [HR2 [Hal2 Hopt2]]]].
  rewrite (alignment_cost_ext n _ _ _ _ _ Hal1).
  rewrite (alignment_cost_ext n _ _ _ _ _ Hal2).
  apply Rle_antisym.
  - specialize (Hopt2 (mat_mul M1 (transpose M))
                  (vplus (mat_vec M1 (vopp (mat_vec (transpose M) t))) t1)
                  (rotation_mul _ _ HR1 (rotation_transpose _ HM))).
    rewrite (alignment_cost_ext n _ _
               (fun i => rigid (mat_mul M1 (transpose M))
                           (vplus (mat_vec M1 (vopp (mat_vec (transpose M) t))) t1)
                           (rigid M t (gt_atoms b i)))
               (fun i => rigid M1 t1 (gt_atoms b i))) in Hopt2.
    + exact Hopt2.
    + intros i _. rewrite <- rigid_compose, rigid_inverse by exact HM. reflexivity.
  - specialize (Hopt1 (mat_mul M2 M) (vplus (mat_vec M2 t) t2)
                  (rotation_mul _ _ HR2 HM)).
    rewrite (alignment_cost_ext n _ _
               (fun i => rigid (mat_mul M2 M) (vplus (mat_vec M2 t) t2) (gt_atoms b i))
               (fun i => rigid M2 t2 (rigid M t (gt_atoms b i)))) in Hopt1.
    + exact Hopt1.
    + intros i _. rewrite rigid_compose. reflexivity.
Qed.

(** C7. When [weighted_rigid_align] returns a least-squares optimal rigid
    superposition of the ground truth onto the prediction, both for the
    ground truth and for its image under a rotation [M] and translation [t],
    [mse_loss] has the same value on both: the score only depends on the
    minimal alignment cost. *)
Theorem mse_loss_rigid_invariant (bs n : nat) (pred_atoms gt_atoms : Vec3Array)
    (timesteps : Tensor1) (weights : Tensor2) (mask : option Tensor2)
    (sd_data epsilon : R) (M : Mat3) (t : Vec3) :
  is_rotation M ->
  least_squares_optimal bs n gt_atoms pred_atoms weights mask ->
  least_squares_optimal bs n (fun b i => rigid M t (gt_atoms b i)) pred_atoms
    weights mask ->
  mse_loss (V := euclid) bs n pred_atoms (fun b i => rigid M t (gt_atoms b i))
    timesteps weights mask sd_data epsilon
  = mse_loss (V := euclid) bs n pred_atoms gt_atoms
      timesteps weights mask sd_data epsilon.
Proof.
  intros HM H1 H2. unfold mse_loss. cbv zeta.
  apply torch_mean_ext. intros b Hb.
  rewrite !mean_squared_error_cost.
  rewrite (optimal_cost_invariant bs n pred_atoms gt_atoms weights mask M t b
             HM Hb H1 H2).
  reflexivity.
Qed.

End WithAlignment.

(** *** A worked instance *)

(** An alignment that returns the reference points: optimal whenever the
    moving points are a rigid image of the reference points. *)
Definition reference_align : AlignmentLib :=
  {| weighted_rigid_align := fun _ _ _ x_gt _ _ => x_gt |}.

Lemma exact_alignment_optimal {A : AlignmentLib} (bs n : nat)
    (x x_gt : Vec3Array) (weights : Tensor2) (mask : option Tensor2) :
  (forall b i, 0 <= weights b i * mask_or_ones mask b i) ->
  (forall b, (b < bs)%nat ->
     exists M t, is_rotation M /\
       forall i, (i < n)%nat ->
         weighted_rigid_align bs n x x_gt weights mask b i = rigid M t (x b i) /\
         rigid M t (x b i) = x_gt b i) ->
  least_squares_optimal bs n x x_gt weights mask.
Proof.
  intros Hw H b Hb. destruct (H b Hb) as [M [t [HM Hex]]].
  exists M, t. split; [exact HM|]. split; [intros i Hi; apply Hex; exact Hi|].
  intros M' t' _.
  assert (Hzero : alignment_cost n (weights b) (mask_or_ones mask b)
                    (fun i => rigid M t (x b i)) (x_gt b) = 0).
  { unfold alignment_cost. apply sum_n_zero. intros i Hi.
    destruct (Hex i Hi) as [_ ->]. unfold sqnorm, vsub. cbn [vx vy vz]. ring. }
  rewrite Hzero. apply alignment_cost_nonneg. intros i. apply Hw.
Qed.

Definition quarter_turn : Mat3 := mkMat3 0 (-1) 0 1 0 0 0 0 1.
Definition shift : Vec3 := mkVec3 1 2 3.

Lemma quarter_turn_rotation : is_rotation quarter_turn.
Proof.
  split.
  - unfold mat_mul, transpose, quarter_turn, I3.
    cbn [m11 m12 m13 m21 m22 m23 m31 m32 m33]. f_equal; ring.
  - unfold det, quarter_turn. cbn [m11 m12 m13 m21 m22 m23 m31 m32 m33]. ring.
Qed.

(** The theorem for the two atoms of the spec's scenario, predicted exactly,
    and the ground truth turned by a quarter and shifted. *)
Lemma mse_loss_rigid_invariant_witness :
  let pred := SmoothLDDTFacts.two_atoms in
  let ones := SmoothLDDTFacts.all_ones in
  mse_loss (V := euclid) (A := reference_align) 1 2 pred
    (fun b i => rigid quarter_turn shift (pred b i)) (fun _ => 1) ones
    (Some ones) 16 1e-5
  = mse_loss (V := euclid) (A := reference_align) 1 2 pred pred (fun _ => 1)
      ones (Some ones) 16 1e-5.
Proof.
  intros pred ones.
  assert (Hw : forall b i : nat, 0 <= ones b i * mask_or_ones (Some ones) b i).
  { intros b i. unfold ones, SmoothLDDTFacts.all_ones, mask_or_ones. lra. }
  apply (mse_loss_rigid_invariant (A := reference_align) 1 2 pred pred
           (fun _ => 1) ones (Some ones) 16 1e-5 quarter_turn shift
           quarter_turn_rotation).
  - apply exact_alignment_optimal; [exact Hw|].
    intros b _. exists I3, (mkVec3 0 0 0). split; [exact rotation_I3|].
    intros i _. rewrite rigid_I3. split; reflexivity.
  - apply exact_alignment_optimal; [exact Hw|].
    intros b _.
    exists (transpose quarter_turn),
           (vopp (mat_vec (transpose quarter_turn) shift)).
    split; [apply rotation_transpose; exact quarter_turn_rotation|].
    intros i _. rewrite rigid_inverse by exact quarter_turn_rotation.
    split; reflexivity.
Defined.

(** *** Whatever the distance helper does with its epsilon

    When the optimal superposition of the ground truth onto the prediction is
    unique as a set of points, the two aligned tensors agree, and the loss is
    invariant for every implementation of the distance helpers. *)

Definition cost_minimal (n : nat) (w m : nat -> R) (x ref : nat -> Vec3)
    (M : Mat3) (t : Vec3) : Prop :=
  forall M' t', is_rotation M' ->
    alignment_cost n w m (fun i => rigid M t (x i)) ref
    <= alignment_cost n w m (fun i => rigid M' t' (x i)) ref.

Definition unique_optimum (bs n : nat) (x x_gt : Vec3Array)
    (weights : Tensor2) (mask : option Tensor2) : Prop :=
  forall b, (b < bs)%nat ->
  forall M1 t1 M2 t2,
    is_rotation M1 -> is_rotation M2 ->
    cost_minimal n (weights b) (mask_or_ones mask b) (x b) (x_gt b) M1 t1 ->
    cost_minimal n (weights b) (mask_or_ones mask b) (x b) (x_gt b) M2 t2 ->
    forall i, (i < n)%nat -> rigid M1 t1 (x b i) = rigid M2 t2 (x b i).

Lemma mean_squared_error_ext {V : VectorLib} (n : nat)
    (pred_atoms x y : Vec3Array) (weights : Tensor2) (mask : option Tensor2)
    (epsilon : R) (b : nat) :
  (forall i, (i < n)%nat -> x b i = y b i) ->
  mean_squared_error n pred_atoms x weights mask epsilon b
  = mean_squared_error n pred_atoms y weights mask epsilon b.
Proof.
  intros H. unfold mean_squared_error. f_equal. f_equal.
  apply sum_n_ext. intros i Hi. rewrite H by exact Hi. reflexivity.
Qed.

Lemma mse_loss_rigid_invariant_unique {V : VectorLib} {A : AlignmentLib}
    (bs n : nat) (pred_atoms gt_atoms : Vec3Array)
    (timesteps : Tensor1) (weights : Tensor2) (mask : option Tensor2)
    (sd_data epsilon : R) (M : Mat3) (t : Vec3) :
  is_rotation M ->
  least_squares_optimal bs n gt_atoms pred_atoms weights mask ->
  least_squares_optimal bs n (fun b i => rigid M t (gt_atoms b i)) pred_atoms
    weights mask ->
  unique_optimum bs n gt_atoms pred_atoms weights mask ->
  mse_loss bs n pred_atoms (fun b i => rigid M t (gt_atoms b i))
    timesteps weights mask sd_data epsilon
  = mse_loss bs n pred_atoms gt_atoms timesteps weights mask sd_data epsilon.
Proof.
  intros HM H1 H2 Huniq. unfold mse_loss. cbv zeta.
  apply torch_mean_ext. intros b Hb.
  destruct (H1 b Hb) as [M1 [t1 [HR1 [Hal1 Hopt1]]]].
  destruct (H2 b Hb) as [M2 [t2 [HR2 [Hal2 Hopt2]]]].
  rewrite (mean_squared_error_ext n pred_atoms
             (weighted_rigid_align bs n (fun b i => rigid M t (gt_atoms b i))
                pred_atoms weights mask)
             (weighted_rigid_align bs n gt_atoms pred_atoms weights mask));
    [reflexivity|].
  intros i Hi. rewrite Hal1, Hal2 by exact Hi. rewrite rigid_compose.
  apply (Huniq b Hb (mat_mul M2 M) (vplus (mat_vec M2 t) t2) M1 t1);
    [apply rotation_mul; assumption | exact HR1 | | exact Hopt1 | exact Hi].
  intros M' t' HR'.
  specialize (Hopt2 (mat_mul M' (transpose M))
                (vplus (mat_vec M' (vopp (mat_vec (transpose M) t))) t')
                (rotation_mul _ _ HR' (rotation_transpose _ HM))).
  rewrite (alignment_cost_ext n _ _
             (fun i => rigid (mat_mul M' (transpose M))
                         (vplus (mat_vec M' (vopp (mat_vec (transpose M) t))) t')
                         (rigid M t (gt_atoms b i)))
             (fun i => rigid M' t' (gt_atoms b i))) in Hopt2.
  - rewrite (alignment_cost_ext n _ _
               (fun i => rigid (mat_mul M2 M) (vplus (mat_vec M2 t) t2) (gt_atoms b i))
               (fun i => rigid M2 t2 (rigid M t (gt_atoms b i)))).
    + exact Hopt2.
    + intros j _. rewrite rigid_compose. reflexivity.
  - intros j _. rewrite <- rigid_compose, rigid_inverse by exact HM. reflexivity.
Qed.

End RigidFacts.

(* ================================================================== *)
(** * Part III. Further properties of the embedders *)
(* ================================================================== *)

Module DistogramMore.
Import Embedders DistogramFacts.
Local Open Scope Q_scope.

Lemma sqdist_sym (p q : Vec3) : sqdist p q == sqdist q p.
Proof.
  destruct p as [[px py] pz], q as [[qx qy] qz]. unfold sqdist, sq. ring.
Qed.

Lemma sqdist_self (p : Vec3) : sqdist p p == 0.
Proof. destruct p as [[px py] pz]. unfold sqdist, sq. ring. Qed.

(** The channels only depend on the value of the squared distance. *)
Lemma dgram_channels_compat min_bin max_bin no_bins inf (d2 d2' : Q) :
  d2 == d2' ->
  dgram_channels min_bin max_bin no_bins inf d2
  = dgram_channels min_bin max_bin no_bins inf d2'.
Proof.
  intros H. unfold dgram_channels. apply map_ext. intros [lo up].
  unfold Qgtb, Qltb. cbn [fst snd].
  rewrite (Qleb_comp d2 d2' H lo lo (Qeq_refl lo)).
  rewrite (Qleb_comp up up (Qeq_refl up) d2 d2' H). reflexivity.
Qed.

Lemma dgram_lower_nonneg min_bin max_bin no_bins :
  Forall (fun lo => 0 <= lo) (dgram_lower min_bin max_bin no_bins).
Proof.
  unfold dgram_lower. apply Forall_forall. intros y Hy.
  apply in_map_iff in Hy. destruct Hy as [x [<- _]]. unfold sq. nra.
Qed.

(** For every choice of the bins, the distogram has [no_bins] channels, is
    symmetric in the two tokens, and is zero on the diagonal: a token is at
    distance 0 of itself and no lower edge, a square, is below 0. *)
Theorem dgram_symmetric_zero_diagonal (pos : nat -> Vec3) (min_bin max_bin : Q)
    (no_bins : nat) (inf : Q) (i j : nat) :
  List.length (dgram_from_positions pos min_bin max_bin no_bins inf i j) = no_bins /\
  dgram_from_positions pos min_bin max_bin no_bins inf i j
  = dgram_from_positions pos min_bin max_bin no_bins inf j i /\
  dgram_from_positions pos min_bin max_bin no_bins inf i i = repeat 0 no_bins.
Proof.
  unfold dgram_from_positions. split; [|split].
  - rewrite dgram_channels_bins_of, bins_of_length. apply dgram_lower_length.
  - apply dgram_channels_compat. apply sqdist_sym.
  - rewrite (dgram_channels_compat _ _ _ _ _ 0 (sqdist_self (pos i))).
    rewrite dgram_channels_bins_of.
    rewrite <- (dgram_lower_length min_bin max_bin no_bins) at 2.
    apply bins_of_below. apply dgram_lower_nonneg.
Qed.

(** *** Which bin *)

Lemma sorted_head_le (r : Q) (rest : list Q) (k : nat) :
  StronglySorted Qlt (r :: rest) -> (k < List.length (r :: rest))%nat ->
  r <= nth k (r :: rest) 0.
Proof.
  intros Hs Hk. destruct k as [|k]; [simpl; lra|].
  inversion Hs as [|? ? _ Hall]; subst.
  rewrite Forall_forall in Hall.
  assert (Hin : In (nth k rest 0) rest) by (apply nth_In; simpl in Hk; lia).
  specialize (Hall _ Hin). simpl. lra.
Qed.

Lemma bins_of_at (lower : list Q) (inf d2 : Q) :
  StronglySorted Qlt lower ->
  forall k, (k < List.length lower)%nat ->
  nth k lower 0 < d2 -> d2 < nth k (tl lower ++ [inf]) 0 ->
  bins_of lower inf d2 = one_hot (List.length lower) (Z.of_nat k).
Proof.
  induction 1 as [|lo rest Hs IH Hall]; intros k Hk Hlo Hup; [simpl in Hk; lia|].
  destruct k as [|k].
  - cbn [nth tl] in Hlo, Hup.
    change (Z.of_nat 0) with 0%Z. cbn [List.length]. rewrite one_hot_first.
    cbn [bins_of].
    assert (Hhd : hd inf rest = nth 0 (rest ++ [inf]) 0) by (destruct rest; reflexivity).
    rewrite Hhd.
    apply Qgtb_true in Hlo. apply Qltb_true in Hup as Hup'.
    rewrite Hlo, Hup'. f_equal.
    apply bins_of_below.
    destruct rest as [|r rest']; [constructor|].
    cbn [app nth] in Hup. constructor; [lra|].
    inversion Hs as [|? ? _ Hall']; subst.
    apply (sorted_tail_above r); [exact Hall' | lra].
  - destruct rest as [|r rest']; [simpl in Hk; lia|].
    cbn [nth tl] in Hlo. cbn [tl] in Hup.
    change (nth (S k) ((r :: rest') ++ [inf]) 0)
      with (nth k (tl (r :: rest') ++ [inf]) 0) in Hup.
    change (List.length (lo :: r :: rest')) with (S (List.length (r :: rest'))).
    rewrite one_hot_shift.
    rewrite <- (IH k ltac:(simpl in Hk |- *; lia) Hlo Hup).
    cbn [bins_of hd].
    assert (Hr : r <= nth k (r :: rest') 0)
      by (apply sorted_head_le; [exact Hs | simpl in Hk |- *; lia]).
    assert (Hoff : Qltb d2 r = false).
    { apply Qltb_false. apply Qle_trans with (nth k (r :: rest') 0);
        [exact Hr | apply Qlt_le_weak; exact Hlo]. }
    rewrite Hoff, andb_false_r. reflexivity.
Qed.

Lemma linspace_last (start stop : Q) (steps : nat) :
  (2 <= steps)%nat -> nth (steps - 1) (linspace start stop steps) 0 == stop.
Proof.
  intros Hn. unfold linspace. destruct steps as [|[|n]]; try lia.
  rewrite nth_map_seq by lia. cbn [Nat.add].
  set (N := inject_Z (Z.of_nat (S (S n) - 1))).
  assert (HN : ~ N == 0).
  { unfold N. intros H. apply (Qeq_bool_neq (inject_Z (Z.of_nat (S (S n) - 1))) 0).
    - unfold Qeq_bool, inject_Z. cbn [Qnum Qden]. apply Z.eqb_neq. lia.
    - exact H. }
  rewrite (Qmult_div_r (stop - start) N HN). ring.
Qed.

(** The bin of a squared distance. Take the squared distance [d2] and the
    boundaries [lower] as the tensor dtype computes them, the boundaries
    increasing. When [d2] lies strictly between the boundaries of bin [k], the
    bin vector is the one-hot vector of [k]; and everything above the last
    boundary and below [inf] is in the last bin. *)
Theorem dgram_bin_index (D : TensorDtype) (pos : nat -> Vec3)
    (min_bin max_bin : Q) (no_bins : nat) (inf : Q) (i j : nat) :
  let d2 := sum_sq_diff (pos i) (pos j) in
  let lower := linspace_sq min_bin max_bin no_bins in
  let upper := tl lower ++ [inf] in
  let chans := dgram_from_positions_in D pos min_bin max_bin no_bins inf i j in
  StronglySorted Qlt lower ->
  (forall k, (k < List.length lower)%nat ->
     nth k lower 0 < d2 -> d2 < nth k upper 0 ->
     chans = one_hot (List.length lower) (Z.of_nat k)) /\
  (lower <> [] -> nth (List.length lower - 1) lower 0 < d2 -> d2 < inf ->
     chans = one_hot (List.length lower) (Z.of_nat (List.length lower - 1))).
Proof.
  intros d2 lower upper chans Hs.
  assert (Hch : chans = bins_of lower inf d2) by apply combine_bins_of.
  assert (Hat : forall k, (k < List.length lower)%nat ->
     nth k lower 0 < d2 -> d2 < nth k upper 0 ->
     chans = one_hot (List.length lower) (Z.of_nat k)).
  { intros k Hk Hlo Hup. rewrite Hch.
    apply bins_of_at; [exact Hs | exact Hk | exact Hlo | exact Hup]. }
  split; [exact Hat|].
  intros Hne Hlast Hinf.
  assert (Hlen : (1 <= List.length lower)%nat).
  { destruct lower; [contradiction | simpl; lia]. }
  apply Hat; [lia | exact Hlast |].
  unfold upper. rewrite last_upper_is_inf by exact Hlen. exact Hinf.
Qed.

(** At the default bins, where the boundaries are exact and the last one is
    [max_bin ** 2]: two tokens 60 apart are in the last bin. *)
Lemma dgram_bin_index_witness :
  dgram_from_positions_in exact_dtype (two_tokens 60) default_min_bin
    default_max_bin default_no_bins default_inf 0 1
  = one_hot default_no_bins 38.
Proof.
  assert (H0 : 0 <= default_min_bin) by (unfold default_min_bin; lra).
  assert (H1 : default_min_bin < default_max_bin)
    by (unfold default_min_bin, default_max_bin; lra).
  assert (Hs : StronglySorted Qlt
                 (linspace_sq (TensorDtype := exact_dtype) default_min_bin
                    default_max_bin default_no_bins))
    by (apply dgram_lower_sorted; assumption).
  assert (Hlen : List.length
                   (linspace_sq (TensorDtype := exact_dtype) default_min_bin
                      default_max_bin default_no_bins) = default_no_bins)
    by apply dgram_lower_length.
  pose proof (proj2 (dgram_bin_index exact_dtype (two_tokens 60) default_min_bin
                       default_max_bin default_no_bins default_inf 0 1 Hs)) as H.
  cbv zeta in H. rewrite Hlen in H. apply H.
  - intros E. apply (f_equal (@List.length Q)) in E. rewrite Hlen in E.
    discriminate E.
  - vm_compute. reflexivity.
  - vm_compute. reflexivity.
Defined.

End DistogramMore.

Module TemplateFeatMore.
Import Embedders DistogramFacts TemplateFeatFacts.
Local Open Scope Q_scope.

(** [no_template_features = 84], the input width of [linear_templ_feat]. *)
Definition no_template_features : nat := 84.

(** The concatenated template feature of every template and pair has exactly
    [no_template_features = 84] channels, the input width of
    [linear_templ_feat]: 39 distogram bins, the validity flag and two one-hot
    residue types of 22 classes. *)
Theorem template_feat_width (F : TemplateFeatures) (t i j : nat) :
  List.length (template_feat F t i j) = no_template_features.
Proof.
  rewrite template_feat_blocks, length_app, chain_block_length.
  rewrite vscale_length, length_app. unfold template_restype.
  rewrite !one_hot_length. reflexivity.
Qed.

Lemma vscale_zero (a : list Q) (m : Q) :
  m == 0 -> Forall (fun x => x == 0) (vscale a m).
Proof.
  intros Hm. unfold vscale. apply Forall_forall. intros y Hy.
  apply in_map_iff in Hy. destruct Hy as [x [<- _]]. rewrite Hm. ring.
Qed.

(** A pair with an unresolved pseudo-beta atom (mask 0 on either token) has
    an all-zero feature: the last multiplication by the pair mask gates every
    channel, the residue types included. *)
Theorem template_feat_invalid_pair (F : TemplateFeatures) (t i j : nat) :
  template_pseudo_beta_mask F t i == 0 \/ template_pseudo_beta_mask F t j == 0 ->
  Forall (fun x => x == 0) (template_feat F t i j).
Proof.
  intros H. unfold template_feat. cbv zeta. apply vscale_zero.
  unfold b_pseudo_beta_mask. destruct H as [H | H]; rewrite H; ring.
Qed.

Lemma template_feat_invalid_pair_witness :
  Forall (fun x => x == 0)
    (template_feat
       {| n_templ := 1; n_token := 2; template_aatype := fun _ _ => 3%Z;
          template_pseudo_beta := fun _ => two_tokens 5;
          template_pseudo_beta_mask := fun _ i => inject_Z (Z.of_nat i);
          asym_id := fun _ => 0 |} 0 0 1).
Proof.
  apply template_feat_invalid_pair. left. reflexivity.
Defined.

Lemma vscale_one (a : list Q) (m : Q) : m == 1 -> Forall2 Qeq (vscale a m) a.
Proof.
  intros Hm. induction a as [|x a IH]; simpl; constructor; [|exact IH].
  rewrite Hm. ring.
Qed.

Lemma Forall2_Qeq_trans (a b c : list Q) :
  Forall2 Qeq a b -> Forall2 Qeq b c -> Forall2 Qeq a c.
Proof.
  intros Hab. revert c. induction Hab as [|x y a b Hxy _ IH]; intros c Hbc.
  - inversion Hbc. constructor.
  - inversion Hbc as [|? z ? c' Hyz Hbc']; subst. constructor.
    + rewrite Hxy. exact Hyz.
    + apply IH. exact Hbc'.
Qed.

Lemma Forall2_Qeq_refl (a : list Q) : Forall2 Qeq a a.
Proof. induction a; constructor; [reflexivity | assumption]. Qed.

Lemma Forall2_Qeq_app (a a' b b' : list Q) :
  Forall2 Qeq a a' -> Forall2 Qeq b b' -> Forall2 Qeq (a ++ b) (a' ++ b').
Proof. intros Ha Hb. induction Ha; simpl; [exact Hb | constructor; assumption]. Qed.

(** On a pair of one chain with both pseudo-beta atoms resolved, the feature
    is the plain concatenation: the distogram of the pair, the flag 1, the
    residue type of the first token and the residue type of the second. *)
Theorem template_feat_valid_same_chain (F : TemplateFeatures) (t i j : nat) :
  template_pseudo_beta_mask F t i == 1 ->
  template_pseudo_beta_mask F t j == 1 ->
  isclose (asym_id F j) (asym_id F i) = true ->
  Forall2 Qeq (template_feat F t i j)
    (template_distogram F t i j ++ [1]
     ++ template_restype F t i ++ template_restype F t j).
Proof.
  intros Hi Hj Hclose.
  assert (Hm : b_pseudo_beta_mask F t i j == 1)
    by (unfold b_pseudo_beta_mask; rewrite Hi, Hj; ring).
  assert (Hs : same_asym_id F i j == 1)
    by (unfold same_asym_id; rewrite Hclose; reflexivity).
  unfold template_feat. cbv zeta.
  eapply Forall2_Qeq_trans; [apply vscale_one; exact Hm|].
  replace (template_distogram F t i j ++ [1]
           ++ template_restype F t i ++ template_restype F t j)
    with ((template_distogram F t i j ++ [1])
          ++ template_restype F t i ++ template_restype F t j)
    by (rewrite <- app_assoc; reflexivity).
  apply Forall2_Qeq_app; [|apply Forall2_Qeq_refl].
  eapply Forall2_Qeq_trans; [apply vscale_one; exact Hs|].
  apply Forall2_Qeq_app; [apply Forall2_Qeq_refl|].
  constructor; [exact Hm | constructor].
Qed.

Lemma template_feat_valid_same_chain_witness :
  Forall2 Qeq (template_feat two_chains 0 1 1)
    (template_distogram two_chains 0 1 1 ++ [1]
     ++ template_restype two_chains 0 1 ++ template_restype two_chains 0 1).
Proof.
  apply template_feat_valid_same_chain; vm_compute; reflexivity.
Defined.

(** *** [torch.isclose] on integer chain identifiers *)

Lemma Qabs_inject_Z (z : Z) : Qabs (inject_Z z) == inject_Z (Z.abs z).
Proof.
  apply Qabs_case; intros Hs.
  - change 0 with (inject_Z 0) in Hs. rewrite <- Zle_Qle in Hs.
    rewrite Z.abs_eq by exact Hs. reflexivity.
  - change 0 with (inject_Z 0) in Hs. rewrite <- Zle_Qle in Hs.
    rewrite <- inject_Z_opp. rewrite Z.abs_neq by exact Hs. reflexivity.
Qed.

Lemma isclose_successor (b : Z) :
  (100000 <= Z.abs b)%Z -> isclose (inject_Z (b + 1)) (inject_Z b) = true.
Proof.
  intros Hb. unfold isclose. apply Qle_bool_iff.
  assert (Hd : inject_Z (b + 1) - inject_Z b == 1).
  { rewrite inject_Z_plus. change (inject_Z 1) with 1. ring. }
  rewrite Hd, Qabs_inject_Z.
  assert (Hq : 100000 <= inject_Z (Z.abs b)).
  { change 100000 with (inject_Z 100000). rewrite <- Zle_Qle. exact Hb. }
  change (Qabs 1) with 1. unfold atol, rtol. lra.
Qed.

(** The chain mask is exact for small identifiers only. With integer chain
    identifiers, the mask of a pair of two different chains is 0 when the
    identifier of the first token is at most 99999 in magnitude; from 100000
    on, a chain and the next one are close, the mask of the pair is 1 and the
    two chains count as one. *)
Theorem chain_mask_integer_ids (F : TemplateFeatures) (i j : nat) (a b : Z) :
  asym_id F i = inject_Z b -> asym_id F j = inject_Z a ->
  (a <> b -> (Z.abs b <= 99999)%Z -> same_asym_id F i j = 0) /\
  (a = (b + 1)%Z -> (100000 <= Z.abs b)%Z -> same_asym_id F i j = 1).
Proof.
  intros Hi Hj. unfold same_asym_id. rewrite Hi, Hj. split.
  - intros Hne Hb. rewrite (isclose_distinct_ids a b Hne Hb). reflexivity.
  - intros -> Hb. rewrite (isclose_successor b Hb). reflexivity.
Qed.

Lemma chain_mask_integer_ids_witness :
  same_asym_id
    {| n_templ := 1; n_token := 2; template_aatype := fun _ _ => 0%Z;
       template_pseudo_beta := fun _ => two_tokens 5;
       template_pseudo_beta_mask := fun _ _ => 1;
       asym_id := fun i => inject_Z (100000 + Z.of_nat i) |} 0 1 = 1.
Proof.
  apply (proj2 (chain_mask_integer_ids
                  {| n_templ := 1; n_token := 2; template_aatype := fun _ _ => 0%Z;
                     template_pseudo_beta := fun _ => two_tokens 5;
                     template_pseudo_beta_mask := fun _ _ => 1;
                     asym_id := fun i => inject_Z (100000 + Z.of_nat i) |}
                  0 1 100001 100000 eq_refl eq_refl)).
  - reflexivity.
  - vm_compute. discriminate.
Defined.

End TemplateFeatMore.

(* ================================================================== *)
(** * Part IV. Further properties of the losses *)
(* ================================================================== *)

Module AggregatorMore.
Import Losses.

Section AnyScalar.
Context {T : Type} {LS : LossScalar T}.

(** What the loop stores for a term: [0.] for a NaN or infinite term. *)
Definition sanitized (loss : T) : T :=
  if ls_isnan loss then ls_zero else if ls_isinf loss then ls_zero else loss.

Lemma aggregate_step_configured (weight_of : string -> option T)
    (st : agg_state) (loss_name : string) (loss w : T) :
  weight_of loss_name = Some w ->
  exists logged,
    aggregate_step weight_of st (loss_name, loss)
    = Ok {| cumulative_loss :=
              ls_add (cumulative_loss st) (ls_mul w (sanitized loss));
            losses_now := dict_set (losses_now st) loss_name (sanitized loss);
            warnings := warnings st ++ logged |}.
Proof.
  intros Hw. unfold aggregate_step, sanitized. rewrite Hw.
  destruct (ls_isnan loss); [eexists; reflexivity|].
  destruct (ls_isinf loss); eexists; reflexivity.
Qed.

Lemma dict_get_set (d : dict) (k k' : string) (v : T) :
  dict_get (dict_set d k v) k'
  = if String.eqb k k' then Some v else dict_get d k'.
Proof.
  induction d as [|[k0 v0] d IH]; simpl.
  - destruct (String.eqb k k'); reflexivity.
  - destruct (String.eqb_spec k0 k) as [-> | Hk0]; simpl.
    + destruct (String.eqb k k'); reflexivity.
    + destruct (String.eqb_spec k0 k') as [-> | Hk0'].
      * destruct (String.eqb_spec k k') as [-> | _]; [contradiction | reflexivity].
      * exact IH.
Qed.

(** The loop over configured terms: it ends normally, and a key that is not
    among the terms keeps its entry. *)
Lemma aggregate_loop_configured (weight_of : string -> option T)
    (items : list (string * T)) : forall st,
  (forall item, In item items -> weight_of (fst item) <> None) ->
  exists st',
    aggregate_loop weight_of items st = (Ok st', warnings st') /\
    (forall k, ~ In k (map fst items) ->
       dict_get (losses_now st') k = dict_get (losses_now st) k).
Proof.
  induction items as [|[name loss] rest IH]; intros st Hcfg.
  - exists st. split; [reflexivity | auto].
  - cbn [aggregate_loop].
    destruct (weight_of name) as [w|] eqn:Hw;
      [|exfalso; apply (Hcfg (name, loss)); [left; reflexivity | exact Hw]].
    destruct (aggregate_step_configured weight_of st name loss w Hw) as [lg Hstep].
    rewrite Hstep.
    destruct (IH {| cumulative_loss :=
                      ls_add (cumulative_loss st) (ls_mul w (sanitized loss));
                    losses_now := dict_set (losses_now st) name (sanitized loss);
                    warnings := warnings st ++ lg |})
      as [st' [Hloop Hkeep]];
      [intros item Hin; apply Hcfg; right; exact Hin|].
    exists st'. split; [exact Hloop|].
    intros k Hk. rewrite Hkeep by (intros Hin; apply Hk; right; exact Hin).
    cbn [losses_now]. rewrite dict_get_set.
    destruct (String.eqb_spec name k) as [-> | _]; [|reflexivity].
    exfalso. apply Hk. left. reflexivity.
Qed.

Lemma aggregate_loop_append (weight_of : string -> option T)
    (l1 l2 : list (string * T)) : forall st st' logged,
  aggregate_loop weight_of l1 st = (Ok st', logged) ->
  aggregate_loop weight_of (l1 ++ l2) st = aggregate_loop weight_of l2 st'.
Proof.
  induction l1 as [|item rest IH]; intros st st' logged H.
  - simpl in H. injection H as <- _. reflexivity.
  - cbn [aggregate_loop app] in *.
    destruct (aggregate_step weight_of st item) as [st1|e]; [|discriminate H].
    apply (IH st1 st' logged H).
Qed.

(** A term without a configured weight makes [_aggregate_losses] raise: the
    lookup [self.config[loss_name]] of the first such term fails, with that
    name, before anything is returned. *)
Theorem aggregate_missing_weight_raises (weight_of : string -> option T)
    (pre post : list (string * T)) (loss_name : string) (loss : T) :
  (forall item, In item pre -> weight_of (fst item) <> None) ->
  weight_of loss_name = None ->
  exists logged,
    _aggregate_losses weight_of (pre ++ (loss_name, loss) :: post)
    = (Raised loss_name, logged).
Proof.
  intros Hpre Hmiss. unfold _aggregate_losses.
  destruct (aggregate_loop_configured weight_of pre
              {| cumulative_loss := ls_zero;
                 losses_now := pre ++ (loss_name, loss) :: post;
                 warnings := [] |} Hpre) as [st' [Hloop _]].
  rewrite (aggregate_loop_append _ _ _ _ _ _ Hloop).
  cbn [aggregate_loop]. unfold aggregate_step. rewrite Hmiss.
  eexists. reflexivity.
Qed.

(** The breakdown. When every term has a configured weight, the term names
    are distinct and none is ["loss"] or ["unscaled_loss"], the call
    returns, the returned dict holds every term under its name, with [0.] in
    place of a NaN or infinite term, and holds the cumulative loss under both
    ["loss"] and ["unscaled_loss"]. *)
Theorem aggregate_breakdown (weight_of : string -> option T)
    (first : string * T) (rest : list (string * T)) :
  let items := first :: rest in
  (forall item, In item items -> weight_of (fst item) <> None) ->
  NoDup (map fst items) ->
  ~ In "loss"%string (map fst items) ->
  ~ In "unscaled_loss"%string (map fst items) ->
  exists total breakdown logged,
    _aggregate_losses weight_of items = (Ok (total, breakdown), logged) /\
    (forall loss_name loss, In (loss_name, loss) items ->
       dict_get breakdown loss_name = Some (sanitized loss)) /\
    dict_get breakdown "loss" = Some total /\
    dict_get breakdown "unscaled_loss" = Some total.
Proof.
  intros items Hcfg Hnodup Hloss Hunscaled.
  assert (Hinv : forall l st,
    (forall item, In item l -> weight_of (fst item) <> None) ->
    NoDup (map fst l) ->
    exists st',
      aggregate_loop weight_of l st = (Ok st', warnings st') /\
      (forall k, ~ In k (map fst l) ->
         dict_get (losses_now st') k = dict_get (losses_now st) k) /\
      (forall name loss, In (name, loss) l ->
         dict_get (losses_now st') name = Some (sanitized loss))).
  { induction l as [|[name loss] l IH]; intros st Hc Hnd.
    - exists st. repeat split; auto. intros name loss [].
    - cbn [aggregate_loop].
      destruct (weight_of name) as [w|] eqn:Hw;
        [|exfalso; apply (Hc (name, loss)); [left; reflexivity | exact Hw]].
      destruct (aggregate_step_configured weight_of st name loss w Hw) as [lg Hstep].
      rewrite Hstep. inversion Hnd as [|? ? Hfresh Hnd']; subst.
      destruct (IH {| cumulative_loss :=
                        ls_add (cumulative_loss st) (ls_mul w (sanitized loss));
                      losses_now := dict_set (losses_now st) name (sanitized loss);
                      warnings := warnings st ++ lg |})
        as [st' [Hloop [Hkeep Hdone]]];
        [intros item Hin; apply Hc; right; exact Hin | exact Hnd' |].
      exists st'. split; [exact Hloop|]. split.
      + intros k Hk. rewrite Hkeep by (intros Hin; apply Hk; right; exact Hin).
        cbn [losses_now]. rewrite dict_get_set.
        destruct (String.eqb_spec name k) as [-> | _]; [|reflexivity].
        exfalso. apply Hk. left. reflexivity.
      + intros name' loss' [Heq | Hin].
        * injection Heq as <- <-. rewrite Hkeep by exact Hfresh.
          cbn [losses_now]. rewrite dict_get_set, String.eqb_refl. reflexivity.
        * apply Hdone. exact Hin. }
  destruct (Hinv items {| cumulative_loss := ls_zero; losses_now := items;
                          warnings := [] |} Hcfg Hnodup)
    as [st' [Hloop [_ Hdone]]].
  unfold _aggregate_losses. rewrite Hloop. unfold items at 1.
  eexists _, _, _. split; [reflexivity|]. split; [|split].
  - intros name loss Hin. rewrite !dict_get_set.
    destruct (String.eqb_spec "loss" name) as [<- | _].
    { exfalso. apply Hloss. apply (in_map fst _ _ Hin). }
    destruct (String.eqb_spec "unscaled_loss" name) as [<- | _].
    { exfalso. apply Hunscaled. apply (in_map fst _ _ Hin). }
    apply Hdone. exact Hin.
  - rewrite dict_get_set, String.eqb_refl. reflexivity.
  - rewrite !dict_get_set. reflexivity.
Qed.

End AnyScalar.

Lemma aggregate_missing_weight_raises_witness :
  exists logged,
    _aggregate_losses (LS := real_loss)
      (fun name => if String.eqb name "distogram" then Some (Some 1%R) else None)
      ([("distogram"%string, Some 2%R)]
       ++ ("smooth_lddt_loss"%string, Some 3%R) :: [])
    = (Raised "smooth_lddt_loss", logged).
Proof.
  apply (aggregate_missing_weight_raises (LS := real_loss)).
  - intros item [<- | []]. discriminate.
  - reflexivity.
Defined.

Lemma aggregate_breakdown_witness :
  exists total breakdown logged,
    _aggregate_losses (LS := real_loss) (fun _ => Some (Some 1%R))
      [("distogram"%string, Some 2%R); ("mse_loss"%string, None)]
    = (Ok (total, breakdown), logged) /\
    dict_get breakdown "mse_loss" = Some (Some 0%R) /\
    dict_get breakdown "loss" = Some total.
Proof.
  destruct (aggregate_breakdown (LS := real_loss) (fun _ => Some (Some 1%R))
              ("distogram"%string, Some 2%R) [("mse_loss"%string, None)])
    as [total [bd [logged [Hres [Hterms [Hloss _]]]]]].
  - intros item _. discriminate.
  - repeat constructor; simpl; intuition discriminate.
  - simpl. intuition discriminate.
  - simpl. intuition discriminate.
  - exists total, bd, logged. split; [exact Hres|]. split; [|exact Hloss].
    apply (Hterms "mse_loss"%string None). right. left. reflexivity.
Defined.

End AggregatorMore.

Module AggregatorFloatMore.
Import Losses AggregatorFacts.

Section WithFormat.
Variables prec emax : Z.

(** The terms that are kept and the terms that are skipped. *)
Definition kept (items : list (string * spec_float)) : list (string * spec_float) :=
  filter (fun item => is_finite (snd item)) items.

Definition skipped (items : list (string * spec_float)) : list (string * spec_float) :=
  filter (fun item => negb (is_finite (snd item))) items.

Lemma not_finite_degenerate (x : spec_float) :
  is_finite x = false -> is_nan x = true \/ is_inf x = true.
Proof. destruct x; simpl; intros H; try discriminate H; auto. Qed.

Lemma aggregate_loop_mixed (weight_of : string -> option spec_float)
    (items : list (string * spec_float)) : forall st,
  weights_configured weight_of items ->
  exists c d,
    aggregate_loop (LS := ieee prec emax) weight_of items st
    = (Ok {| cumulative_loss := c; losses_now := d;
             warnings := warnings st
                         ++ map (fun item => warning_for (fst item) (snd item))
                                (skipped items) |},
       warnings st
       ++ map (fun item => warning_for (fst item) (snd item)) (skipped items)) /\
    same_value c (weighted_sum prec emax weight_of (kept items) (cumulative_loss st)).
Proof.
  induction items as [|[name loss] rest IH]; intros st Hcfg.
  - exists (cumulative_loss st), (losses_now st).
    cbn [aggregate_loop skipped kept filter map]. rewrite app_nil_r.
    split; [destruct st; reflexivity | apply same_value_refl].
  - inversion Hcfg as [|? ? [w [Hw Hwfin]] Hcfg']; subst. cbn [fst] in Hw.
    cbn [aggregate_loop]. unfold skipped, kept. cbn [filter snd].
    destruct (is_finite loss) eqn:Hfin; cbn [negb].
    + rewrite (aggregate_step_finite prec emax weight_of st (name, loss))
        by (cbn [fst snd]; eauto).
      destruct (IH {| cumulative_loss :=
                        SFadd prec emax (cumulative_loss st)
                          (SFmul prec emax (weight_or_zero weight_of name) loss);
                      losses_now := dict_set (losses_now st) name loss;
                      warnings := warnings st |} Hcfg')
        as [c [d [Hloop Hsame]]].
      exists c, d. split; [exact Hloop | exact Hsame].
    + rewrite (aggregate_step_degenerate prec emax weight_of st name loss w Hw
                 (not_finite_degenerate loss Hfin)).
      destruct (IH {| cumulative_loss :=
                        SFadd prec emax (cumulative_loss st)
                          (SFmul prec emax w (S754_zero false));
                      losses_now := dict_set (losses_now st) name (S754_zero false);
                      warnings := warnings st ++ [warning_for name loss] |} Hcfg')
        as [c [d [Hloop Hsame]]].
      exists c, d. cbn [warnings cumulative_loss] in Hloop, Hsame.
      rewrite <- app_assoc in Hloop. split; [exact Hloop|].
      apply (same_value_trans _ _ _ Hsame).
      apply weighted_sum_same_value. apply add_weighted_zero. exact Hwfin.
Qed.

(** Any number of degenerate terms. When every term has a finite configured
    weight, a non-empty dict never makes [_aggregate_losses] raise: the
    warnings are those of the NaN and infinite terms, one each, in the order of
    the dict, and the cumulative loss is the sum of [weight * term] over the
    other terms. *)
Theorem aggregate_skips_every_degenerate_term
    (weight_of : string -> option spec_float)
    (first : string * spec_float) (rest : list (string * spec_float)) :
  let items := first :: rest in
  weights_configured weight_of items ->
  exists total breakdown,
    _aggregate_losses (LS := ieee prec emax) weight_of items
    = (Ok (total, breakdown),
       map (fun item => warning_for (fst item) (snd item)) (skipped items)) /\
    same_value total
      (weighted_sum prec emax weight_of (kept items) (S754_zero false)).
Proof.
  intros items Hcfg.
  destruct (aggregate_loop_mixed weight_of items
              {| cumulative_loss := S754_zero false; losses_now := items;
                 warnings := [] |} Hcfg) as [c [d [Hloop Hsame]]].
  cbn [warnings app cumulative_loss] in Hloop, Hsame.
  unfold _aggregate_losses. cbn [ls_zero ieee]. rewrite Hloop. unfold items at 1.
  eexists _, _. split; [reflexivity | exact Hsame].
Qed.

(** Without a degenerate term nothing is logged and the cumulative loss is
    exactly the fold [0.0 + w1 * l1 + ... + wn * ln], in the order of the
    dict. *)
Theorem aggregate_finite_terms
    (weight_of : string -> option spec_float)
    (first : string * spec_float) (rest : list (string * spec_float)) :
  let items := first :: rest in
  weights_configured weight_of items -> terms_finite items ->
  exists breakdown,
    _aggregate_losses (LS := ieee prec emax) weight_of items
    = (Ok (weighted_sum prec emax weight_of items (S754_zero false), breakdown), []).
Proof.
  intros items Hcfg Hfin.
  destruct (aggregate_loop_finite prec emax weight_of items
              {| cumulative_loss := S754_zero false; losses_now := items;
                 warnings := [] |} Hcfg Hfin) as [d Hloop].
  cbn [warnings cumulative_loss] in Hloop.
  unfold _aggregate_losses. cbn [ls_zero ieee]. rewrite Hloop. unfold items at 1.
  eexists. reflexivity.
Qed.

End WithFormat.

Lemma aggregate_skips_every_degenerate_term_witness :
  exists total breakdown,
    _aggregate_losses (LS := ieee 24 128) (fun _ => Some one32)
      [("distogram"%string, S754_infinity false);
       ("smooth_lddt_loss"%string, S754_nan);
       ("mse_loss"%string, two32)]
    = (Ok (total, breakdown),
       ["distogram loss is inf. Skipping..."%string;
        "smooth_lddt_loss loss is NaN. Skipping..."%string]) /\
    same_value total two32.
Proof.
  apply (aggregate_skips_every_degenerate_term 24 128 (fun _ => Some one32)
           ("distogram"%string, S754_infinity false)
           [("smooth_lddt_loss"%string, S754_nan); ("mse_loss"%string, two32)]).
  repeat constructor; exists one32; split; reflexivity.
Defined.

Lemma aggregate_finite_terms_witness :
  exists breakdown,
    _aggregate_losses (LS := ieee 24 128) (fun _ => Some one32)
      [("distogram"%string, one32); ("mse_loss"%string, two32)]
    = (Ok (three32, breakdown), []).
Proof.
  apply (aggregate_finite_terms 24 128 (fun _ => Some one32)
           ("distogram"%string, one32) [("mse_loss"%string, two32)]).
  - repeat constructor; exists one32; split; reflexivity.
  - repeat constructor.
Defined.

End AggregatorFloatMore.

Module RealLossMore.
Import Losses RealFacts SmoothLDDTFacts DivisionFacts.
Local Open Scope R_scope.

Lemma sum_n_le (n : nat) (f g : nat -> R) :
  (forall i, (i < n)%nat -> f i <= g i) -> sum_n n f <= sum_n n g.
Proof.
  induction n as [|n IH]; intros H; simpl; [lra|].
  assert (sum_n n f <= sum_n n g) by (apply IH; intros; apply H; lia).
  assert (f n <= g n) by (apply H; lia). lra.
Qed.

Lemma sum_n_term_le (n : nat) (f : nat -> R) (c : nat) :
  (forall i, (i < n)%nat -> 0 <= f i) -> (c < n)%nat -> f c <= sum_n n f.
Proof.
  induction n as [|n IH]; intros H Hc; [lia|]. cbn [sum_n].
  assert (Hn : 0 <= f n) by (apply H; lia).
  assert (Hs : 0 <= sum_n n f) by (apply sum_n_nonneg; intros; apply H; lia).
  destruct (Nat.eq_dec c n) as [-> | Hne]; [lra|].
  assert (f c <= sum_n n f) by (apply IH; [intros; apply H|]; lia). lra.
Qed.

(** A one-hot label picks its own entry out of a sum. *)
Lemma sum_n_one_hot (n : nat) (f : nat -> R) (c : nat) :
  (c < n)%nat -> sum_n n (fun k => one_hot c k * f k) = f c.
Proof.
  induction n as [|n IH]; intros Hc; [lia|]. cbn [sum_n].
  destruct (Nat.eq_dec c n) as [-> | Hne].
  - rewrite sum_n_zero.
    + unfold one_hot. rewrite Nat.eqb_refl. ring.
    + intros i Hi. unfold one_hot.
      destruct (Nat.eqb_spec i n); [lia | ring].
  - rewrite IH by lia. unfold one_hot.
    destruct (Nat.eqb_spec n c); [lia | ring].
Qed.

Lemma cross_entropy_one_hot_value (n : nat) (logits : nat -> R) (c : nat) :
  (c < n)%nat ->
  softmax_cross_entropy n logits (one_hot c)
  = ln (sum_n n (fun k => exp (logits k))) - logits c /\
  0 <= softmax_cross_entropy n logits (one_hot c).
Proof.
  intros Hc.
  assert (Hval : softmax_cross_entropy n logits (one_hot c)
                 = ln (sum_n n (fun k => exp (logits k))) - logits c).
  { unfold softmax_cross_entropy. rewrite sum_n_one_hot by exact Hc.
    unfold log_softmax. ring. }
  split; [exact Hval|]. rewrite Hval.
  assert (Hle : exp (logits c) <= sum_n n (fun k => exp (logits k))).
  { apply (sum_n_term_le n (fun k => exp (logits k)) c); [|exact Hc].
    intros i _. left. apply exp_pos. }
  pose proof (exp_pos (logits c)) as Hpos.
  rewrite <- (ln_exp (logits c)).
  destruct Hle as [Hlt | Heq].
  - pose proof (ln_increasing _ _ Hpos Hlt). lra.
  - rewrite <- Heq. lra.
Qed.

(** The cross entropy of [n] logits against the one-hot label of a class
    [c < n] is the log-sum-exp of the logits minus the logit of [c], and it is
    never negative. *)
Theorem softmax_cross_entropy_one_hot (n : nat) (logits : nat -> R) (c : nat) :
  (c < n)%nat ->
  softmax_cross_entropy n logits (one_hot c)
  = ln (sum_n n (fun k => exp (logits k))) - logits c /\
  0 <= softmax_cross_entropy n logits (one_hot c).
Proof.
  intros Hc. destruct (cross_entropy_one_hot_value n logits c Hc) as [Hval Hpos].
  split; [exact Hval | exact Hpos].
Qed.

Lemma softmax_cross_entropy_one_hot_witness :
  0 <= softmax_cross_entropy 2 (fun _ => 0) (one_hot 1).
Proof.
  exact (proj2 (softmax_cross_entropy_one_hot 2 (fun _ => 0) 1 (Nat.lt_succ_diag_r 1))).
Defined.

(** *** The range of the smooth LDDT loss *)

Lemma sum2_le (n m : nat) (f g : nat -> nat -> R) :
  (forall i j, (i < n)%nat -> (j < m)%nat -> f i j <= g i j) ->
  sum2 n m f <= sum2 n m g.
Proof.
  intros H. unfold sum2. apply sum_n_le. intros i Hi.
  apply sum_n_le. intros j Hj. apply H; assumption.
Qed.

(** With indicator flags and mask, the smooth LDDT loss of any prediction is
    above 0 and at most 1: the score of every batch element is a weighted mean
    of values in [(0, 1)], shrunk by [epsilon]. *)
Theorem smooth_lddt_loss_range {V : VectorLib} (bs n : nat)
    (pred_atoms gt_atoms : Vec3Array) (rna dna : Tensor2)
    (mask : option Tensor2) (epsilon : R) :
  (0 < bs)%nat -> 0 < epsilon ->
  indicator rna -> indicator dna -> boolean_mask mask ->
  exists v,
    smooth_lddt_loss bs n pred_atoms gt_atoms rna dna mask epsilon = Some v /\
    0 < v <= 1.
Proof.
  intros Hbs He Hr Hd Hm. eexists.
  split; [apply smooth_lddt_loss_value; assumption|].
  assert (Hn : 0 < INR bs) by (apply lt_0_INR; exact Hbs).
  set (term := fun b =>
    1 - sum2 n n (fun l m => epsilon_lm pred_atoms gt_atoms b l m
                             * c_lm gt_atoms rna dna mask b l m)
        / (sum2 n n (c_lm gt_atoms rna dna mask b) + epsilon)).
  assert (Hterm : forall b, 0 < term b <= 1).
  { intros b. unfold term.
    set (S := sum2 n n (c_lm gt_atoms rna dna mask b)).
    set (N := sum2 n n (fun l m => epsilon_lm pred_atoms gt_atoms b l m
                                   * c_lm gt_atoms rna dna mask b l m)).
    assert (HS : 0 <= S)
      by (apply sum2_nonneg; intros; apply c_lm_nonneg; assumption).
    assert (HN0 : 0 <= N).
    { apply sum2_nonneg. intros l m _ _.
      pose proof (epsilon_lm_bounds pred_atoms gt_atoms b l m).
      pose proof (c_lm_nonneg gt_atoms rna dna mask b l m Hr Hd Hm).
      apply Rmult_le_pos; lra. }
    assert (HNS : N <= S).
    { apply sum2_le. intros l m _ _.
      pose proof (epsilon_lm_bounds pred_atoms gt_atoms b l m).
      pose proof (c_lm_nonneg gt_atoms rna dna mask b l m Hr Hd Hm).
      nra. }
    assert (Hq1 : N / (S + epsilon) < 1) by (apply div_lt_l; lra).
    assert (Hq0 : 0 <= N / (S + epsilon)).
    { unfold Rdiv. apply Rmult_le_pos; [exact HN0|].
      left. apply Rinv_0_lt_compat. lra. }
    lra. }
  split.
  - apply lt_div_r; [exact Hn|]. rewrite Rmult_0_l.
    replace 0 with (INR bs * 0) by ring.
    apply sum_n_above; [|exact Hbs]. intros b _. apply Hterm.
  - apply (Rmult_le_reg_r (INR bs)); [exact Hn|].
    unfold Rdiv. rewrite Rmult_assoc, Rinv_l, Rmult_1_r, Rmult_1_l by lra.
    rewrite <- (Rmult_1_r (INR bs)), <- sum_n_const.
    apply sum_n_le. intros b _. apply Hterm.
Qed.

Lemma smooth_lddt_loss_range_witness :
  exists v,
    smooth_lddt_loss (V := euclid) 1 2 two_atoms
      (fun b i => two_atoms b (1 - i)%nat) no_flags no_flags (Some all_ones) 1e-5
    = Some v /\ 0 < v <= 1.
Proof.
  apply (smooth_lddt_loss_range (V := euclid) 1 2 two_atoms
           (fun b i => two_atoms b (1 - i)%nat) no_flags no_flags (Some all_ones) 1e-5).
  - lia.
  - lra.
  - exact no_flags_indicator.
  - exact no_flags_indicator.
  - intros b i. right. reflexivity.
Defined.

End RealLossMore.

Module HeadLossMore.
Import Losses RealFacts SmoothLDDTFacts DivisionFacts RealLossMore.
Local Open Scope R_scope.

Lemma linspace_length (start stop : R) (steps : nat) :
  List.length (linspace start stop steps) = steps.
Proof.
  unfold linspace. destruct steps as [|[|n]]; try reflexivity.
  rewrite length_map, length_seq. reflexivity.
Qed.

Lemma true_bins_bound (boundaries : list R) (dists : R) :
  (true_bins boundaries dists <= List.length boundaries)%nat.
Proof. unfold true_bins. apply filter_length_le. Qed.

(** A masked mean of non-negative errors, as [distogram_loss] computes it. *)
Lemma masked_mean_nonneg (bs n : nat) (errors : nat -> nat -> nat -> R)
    (mask : Tensor2) (eps : R) :
  (0 < bs)%nat -> 0 < eps ->
  (forall b i j, 0 <= errors b i j) -> (forall b i, 0 <= mask b i) ->
  exists v,
    torch_mean bs (fun b =>
      osum_n n (fun i =>
        div (sum_n n (fun j => errors b i j * (mask b i * mask b j)))
            (eps + sum2 n n (fun i j => mask b i * mask b j))))
    = Some v /\ 0 <= v.
Proof.
  intros Hbs He Herr Hmask.
  set (denom := fun b => eps + sum2 n n (fun i j => mask b i * mask b j)).
  assert (Hden : forall b, 0 < denom b).
  { intros b. pose proof (distogram_denom_pos n (mask b) eps He). unfold denom. lra. }
  exists (sum_n bs (fun b =>
            sum_n n (fun i =>
              sum_n n (fun j => errors b i j * (mask b i * mask b j)) / denom b))
          / INR bs).
  split.
  - apply torch_mean_some; [exact Hbs|]. intros b _.
    apply osum_n_some. intros i _. apply div_some.
    pose proof (Hden b). unfold denom in *. lra.
  - unfold Rdiv at 1. apply Rmult_le_pos.
    + apply sum_n_nonneg. intros b _. apply sum_n_nonneg. intros i _.
      unfold Rdiv. apply Rmult_le_pos.
      * apply sum_n_nonneg. intros j _.
        apply Rmult_le_pos; [apply Herr|]. apply Rmult_le_pos; apply Hmask.
      * left. apply Rinv_0_lt_compat. apply Hden.
    + left. apply Rinv_0_lt_compat. apply lt_0_INR. exact Hbs.
Qed.

(** The distogram loss is defined and never negative: the bin of a distance,
    a count of [no_bins - 1] boundaries, is always a valid class of
    [F.one_hot(true_bins, no_bins)], each cross entropy against it is
    non-negative, and the mask weights are products of non-negative entries. *)
Theorem distogram_loss_nonneg (ca_pos bs n : nat)
    (logits : nat -> nat -> nat -> nat -> R) (positions : Vec3Array)
    (mask : Tensor2) (min_bin max_bin : R) (no_bins : nat) (eps : R) :
  (0 < bs)%nat -> (1 <= no_bins)%nat -> 0 < eps ->
  (forall b i, 0 <= mask b i) ->
  (forall d,
     (true_bins (map (fun x : R => (x ^ 2)%R) (linspace min_bin max_bin (no_bins - 1)%nat)) d
      < no_bins)%nat) /\
  exists v,
    distogram_loss ca_pos bs n logits positions mask min_bin max_bin no_bins eps
    = Some v /\ 0 <= v.
Proof.
  intros Hbs Hnb He Hmask.
  assert (Hbin : forall d,
     (true_bins (map (fun x : R => (x ^ 2)%R) (linspace min_bin max_bin (no_bins - 1)%nat)) d
      < no_bins)%nat).
  { intros d.
    pose proof (true_bins_bound
      (map (fun x : R => (x ^ 2)%R) (linspace min_bin max_bin (no_bins - 1)%nat)) d) as H.
    rewrite length_map, linspace_length in H. lia. }
  split; [exact Hbin|].
  unfold distogram_loss. destruct no_bins as [|k] eqn:Ek; [lia|]. cbv zeta.
  rewrite <- Ek in *.
  apply (masked_mean_nonneg bs n
    (fun b i j =>
       softmax_cross_entropy no_bins (logits b i j)
         (one_hot (true_bins
            (map (fun x : R => (x ^ 2)%R) (linspace min_bin max_bin (no_bins - 1)%nat))
            (sqnorm (vsub (positions b (i * 4 + ca_pos)%nat)
                          (positions b (j * 4 + ca_pos)%nat))))))
    mask eps Hbs He); [|exact Hmask].
  intros b i j. apply cross_entropy_one_hot_value. apply Hbin.
Qed.

Lemma distogram_loss_nonneg_witness :
  exists v,
    distogram_loss 1 1 2 (fun _ _ _ k => INR k) two_atoms all_ones 0 32 64 1e-6
    = Some v /\ 0 <= v.
Proof.
  apply (distogram_loss_nonneg 1 1 2 (fun _ _ _ k => INR k) two_atoms all_ones
           0 32 64 1e-6).
  - lia.
  - lia.
  - lra.
  - intros b i. unfold all_ones. lra.
Defined.

(** [mse_loss] never divides by zero, at any noise level: with a positive
    [epsilon] and a mask of zeros and ones it is defined for every
    [timesteps], [sd_data], weights and alignment, [timesteps = 0] or
    [sd_data = 0] included. The inner [mean_squared_error] runs with its own
    default epsilon, not with the one passed to [mse_loss]. *)
Theorem mse_loss_defined {V : VectorLib} {A : AlignmentLib} (bs n : nat)
    (pred_atoms gt_atoms : Vec3Array) (timesteps : Tensor1)
    (weights : Tensor2) (mask : option Tensor2) (sd_data epsilon : R) :
  (0 < bs)%nat -> 0 < epsilon -> boolean_mask mask ->
  exists v,
    mse_loss bs n pred_atoms gt_atoms timesteps weights mask sd_data epsilon
    = Some v /\
    v = sum_n bs (fun b =>
          (timesteps b ^ 2 + sd_data ^ 2) / ((timesteps b * sd_data) ^ 2 + epsilon)
          * (sum_n n (fun i =>
               square_euclidean_distance (pred_atoms b i)
                 (weighted_rigid_align bs n gt_atoms pred_atoms weights mask b i)
                 default_epsilon
               * mask_or_ones mask b i * weights b i)
             / (default_epsilon + sum_n n (mask_or_ones mask b)) / 3))
        / INR bs.
Proof.
  intros Hbs He Hm. eexists. split; [|reflexivity].
  unfold mse_loss. cbv zeta. apply torch_mean_some; [exact Hbs|].
  intros b _.
  rewrite mean_squared_error_value by (unfold default_epsilon; try lra; exact Hm).
  rewrite div_some; [reflexivity|].
  pose proof (pow2_ge_0 (timesteps b * sd_data)). lra.
Qed.

Lemma mse_loss_defined_witness :
  exists v,
    mse_loss (V := euclid) (A := RigidFacts.reference_align) 1 2 two_atoms
      two_atoms (fun _ => 0) all_ones (Some all_ones) 16 1e-5 = Some v.
Proof.
  destruct (mse_loss_defined (V := euclid) (A := RigidFacts.reference_align) 1 2
              two_atoms two_atoms (fun _ => 0) all_ones (Some all_ones) 16 1e-5)
    as [v [Hv _]].
  - lia.
  - lra.
  - intros b i. right. reflexivity.
  - exists v. exact Hv.
Defined.

End HeadLossMore.

Module ForwardMore.
Import Losses.
Local Open Scope R_scope.




End ForwardMore.

Module ResolvedLossMore.
Import Losses RealFacts SmoothLDDTFacts DivisionFacts RealLossMore.
Local Open Scope R_scope.

Lemma Int_part_IZR (z : Z) : Int_part (IZR z) = z.
Proof.
  unfold Int_part. rewrite <- (up_tech (IZR z) z); [lia | lra |].
  rewrite plus_IZR. lra.
Qed.

Lemma long_of_indicator (x : R) :
  x = 0 \/ x = 1 -> (long x = 0 \/ long x = 1)%Z.
Proof.
  intros [-> | ->]; unfold long.
  - destruct (Rle_dec 0 0); [|lra]. left. apply (Int_part_IZR 0).
  - destruct (Rle_dec 0 1); [|lra]. right. apply (Int_part_IZR 1).
Qed.

(** With a 0/1 [atom_exists], a non-negative mask and a positive [eps], the
    experimentally-resolved loss does not raise and every entry is defined and
    non-negative. The numerator is summed over the atoms and then over the
    whole batch, so it is shared: two batch elements with the same mask count
    get the same value, whatever their own logits are. *)
Theorem experimentally_resolved_loss_shared_numerator (bs n : nat)
    (logits : nat -> nat -> nat -> R) (atom_exists atom_mask : Tensor2) (eps : R) :
  indicator atom_exists -> (forall b i, 0 <= atom_mask b i) -> 0 < eps ->
  exists f,
    experimentally_resolved_loss bs n logits atom_exists atom_mask eps = Some f /\
    (forall b, exists v, f b = Some v /\ 0 <= v) /\
    (forall b b',
       sum_n n (atom_mask b) = sum_n n (atom_mask b') -> f b = f b').
Proof.
  intros Hex Hmask He.
  assert (Hclass : forall b i,
    (Z.to_nat (long (atom_exists b i)) < 2)%nat /\
    resolved_class_ok (long (atom_exists b i)) = true).
  { intros b i. destruct (long_of_indicator _ (Hex b i)) as [-> | ->];
      split; (reflexivity || (simpl; lia)). }
  unfold experimentally_resolved_loss.
  assert (Hok : forallb (fun b =>
       forallb (fun i => resolved_class_ok (long (atom_exists b i))) (seq 0 n))
       (seq 0 bs) = true).
  { apply forallb_forall. intros b _. apply forallb_forall. intros i _. apply Hclass. }
  rewrite Hok. cbv zeta. eexists. split; [reflexivity|]. split.
  - intros b.
    assert (Hden : 0 < eps + sum_n n (atom_mask b)).
    { assert (0 <= sum_n n (atom_mask b))
        by (apply sum_n_nonneg; intros; apply Hmask). lra. }
    eexists. split; [apply div_some; lra|].
    unfold Rdiv. apply Rmult_le_pos; [|left; apply Rinv_0_lt_compat; exact Hden].
    apply sum_n_nonneg. intros b' _. apply sum_n_nonneg. intros i _.
    apply Rmult_le_pos; [|apply Hmask].
    apply cross_entropy_one_hot_value. apply Hclass.
  - intros b b' Hsame. cbv beta. rewrite Hsame. reflexivity.
Qed.

Lemma experimentally_resolved_loss_shared_numerator_witness :
  exists f,
    experimentally_resolved_loss 2 2 (fun b _ k => INR (b + k)) all_ones all_ones
      1e-8 = Some f /\
    f 0%nat = f 1%nat.
Proof.
  destruct (experimentally_resolved_loss_shared_numerator 2 2
              (fun b _ k => INR (b + k)) all_ones all_ones 1e-8)
    as [f [Hf [_ Hshared]]].
  - intros b i. right. reflexivity.
  - intros b i. unfold all_ones. lra.
  - lra.
  - exists f. split; [exact Hf|]. apply Hshared. reflexivity.
Defined.

End ResolvedLossMore.
